(** * setup_structure.py: the directory scaffolder

    The script joins a base directory with each entry of a static list of
    relative paths, calls [os.makedirs(path, exist_ok=True)] on the result
    and prints a confirmation line; a summary line closes the run.

    The script itself is embedded as [scaffold] / [main].  The library
    functions it calls are embedded from CPython's [posixpath] ([join],
    [split], [exists], [isdir]) and [os] ([makedirs]); the host file system
    is a finite map from absolute locations (lists of names, the root being
    the empty list) to node kinds, with POSIX path resolution.  Symbolic
    links, permissions and length limits are outside the model, and so are
    the other refusals of a host (a NUL character in a path) and the
    recursion limit of the interpreter: the model knows the three errors
    [EEXIST], [ENOENT] and [ENOTDIR].  What is proved of a run that
    succeeds does not depend on this; what is proved of a run that raises
    is about these three errors.

    With [posixpath] the separator is [/] and a backslash is an ordinary
    character, so the [base_dir] of the script is one relative name. *)

From Stdlib Require Import String Ascii.
From stdpp Require Import base gmap strings list.

Local Open Scope string_scope.
Local Open Scope list_scope.

(** ** Python [str] operations used by [posixpath] *)

Definition is_sep (c : ascii) : bool := Ascii.eqb c "/"%char.

Definition newline : string := String (ascii_of_nat 10) EmptyString.

Definition nonempty (s : string) : bool :=
  match s with EmptyString => false | String _ _ => true end.

(** [s.startswith('/')] *)
Definition startswith_sep (s : string) : bool :=
  match s with String c _ => is_sep c | EmptyString => false end.

(** [s.endswith('/')] *)
Fixpoint endswith_sep (s : string) : bool :=
  match s with
  | EmptyString => false
  | String c EmptyString => is_sep c
  | String _ r => endswith_sep r
  end.

(** [p.rfind('/') + 1]: one past the last separator, [0] when there is none *)
Fixpoint rfind_succ (p : string) : nat :=
  match p with
  | EmptyString => 0
  | String c r =>
      match rfind_succ r with
      | 0 => if is_sep c then 1 else 0
      | S i => S (S i)
      end
  end.

(** [s[:n]] *)
Fixpoint take_str (n : nat) (s : string) : string :=
  match n, s with
  | S n', String c r => String c (take_str n' r)
  | _, _ => EmptyString
  end.

(** [s[n:]] *)
Fixpoint drop_str (n : nat) (s : string) : string :=
  match n, s with
  | S n', String _ r => drop_str n' r
  | _, _ => s
  end.

(** [s == '/' * len(s)] *)
Fixpoint all_sep (s : string) : bool :=
  match s with
  | EmptyString => true
  | String c r => is_sep c && all_sep r
  end.

(** [s.rstrip('/')] *)
Fixpoint rstrip_sep (s : string) : string :=
  match s with
  | EmptyString => EmptyString
  | String c r =>
      match rstrip_sep r with
      | EmptyString => if is_sep c then EmptyString else String c EmptyString
      | r' => String c r'
      end
  end.

(** [s.split('/')] *)
Fixpoint segments (s : string) : list string :=
  match s with
  | EmptyString => [EmptyString]
  | String c r =>
      if is_sep c then EmptyString :: segments r
      else match segments r with
           | x :: xs => String c x :: xs
           | [] => [String c EmptyString]
           end
  end.

(** ** [posixpath.join] and [posixpath.split] *)

Definition join (a b : string) : string :=
  if startswith_sep b || negb (nonempty a) then b
  else if endswith_sep a then a +:+ b
  else a +:+ "/" +:+ b.

Definition split (p : string) : string * string :=
  let i := rfind_succ p in
  let head := take_str i p in
  let tail := drop_str i p in
  let head :=
    if nonempty head && negb (all_sep head) then rstrip_sep head else head in
  (head, tail).

(** ** The host file system *)

Inductive kind := Dir | File.
Inductive errno := EEXIST | ENOENT | ENOTDIR.

Global Instance kind_eq_dec : EqDecision kind.
Proof. solve_decision. Defined.
Global Instance errno_eq_dec : EqDecision errno.
Proof. solve_decision. Defined.

Abbreviation location := (list string).
Abbreviation tree := (gmap (list string) kind).

(** The root always is a directory. *)
Definition node_at (t : tree) (p : location) : option kind :=
  match p with [] => Some Dir | _ => t !! p end.

(** One component of a path: empty and [.] stay, [..] goes up. *)
Definition step (cur : location) (c : string) : location :=
  if (c =? "") || (c =? ".") then cur
  else if c =? ".." then removelast cur
  else cur ++ [c].

(** Path resolution: every location that is walked through must be a
    directory, and the location reached must exist. *)
Fixpoint walk (t : tree) (cur : location) (cs : list string)
  : errno + location * kind :=
  match cs with
  | [] =>
      match node_at t cur with
      | Some k => inr (cur, k)
      | None => inl ENOENT
      end
  | c :: cs' =>
      match node_at t cur with
      | Some Dir => walk t (step cur c) cs'
      | Some File => inl ENOTDIR
      | None => inl ENOENT
      end
  end.

Definition origin (cwd : location) (path : string) : location :=
  if startswith_sep path then [] else cwd.

(** [stat(2)] *)
Definition sys_stat (cwd : location) (t : tree) (path : string) : errno + kind :=
  if nonempty path then
    match walk t (origin cwd path) (segments path) with
    | inr (_, k) => inr k
    | inl e => inl e
    end
  else inl ENOENT.

Fixpoint strip_empty_end (cs : list string) : list string :=
  match cs with
  | [] => []
  | c :: r =>
      match strip_empty_end r with
      | [] => if nonempty c then [c] else []
      | r' => c :: r'
      end
  end.

(** [mkdir(2)]: trailing separators are ignored, the parent must resolve to
    a directory, and the last component must be a fresh proper name. *)
Definition sys_mkdir (cwd : location) (t : tree) (path : string) : errno + tree :=
  if nonempty path then
    match rev (strip_empty_end (segments path)) with
    | [] => inl EEXIST
    | name :: rparent =>
        match walk t (origin cwd path) (rev rparent) with
        | inl e => inl e
        | inr (_, File) => inl ENOTDIR
        | inr (dir, Dir) =>
            if (name =? ".") || (name =? "..") then inl EEXIST
            else match t !! (dir ++ [name]) with
                 | Some _ => inl EEXIST
                 | None => inr (<[dir ++ [name] := Dir]> t)
                 end
        end
    end
  else inl ENOENT.

(** ** The process: working directory, file system, console *)

Record world := World { cwd : location; fs : tree; stdout : string }.

Definition set_fs (t : tree) (w : world) : world :=
  {| cwd := cwd w; fs := t; stdout := stdout w |}.

Inductive exn := OSError (e : errno) | OutOfFuel.

Global Instance exn_eq_dec : EqDecision exn.
Proof. solve_decision. Defined.

(** Python statements: a state monad with exceptions; a raised exception
    leaves the state as it was when it was raised. *)
Definition M (A : Type) : Type := world → (exn + A) * world.

Global Instance M_ret : MRet M := λ A a w, (inr a, w).
Global Instance M_bind : MBind M := λ A B f m w,
  match m w with
  | (inr a, w') => f a w'
  | (inl e, w') => (inl e, w')
  end.

Definition raise {A} (e : exn) : M A := λ w, (inl e, w).

(** [try: body / except <handled>: handler] *)
Definition try_except {A} (body : M A) (handler : exn → M A) : M A := λ w,
  match body w with
  | (inl e, w') => handler e w'
  | r => r
  end.

(** [os.mkdir]; [os.path.exists] and [os.path.isdir], first as read off a
    world, then as statements; [print] *)
Definition mkdir (path : string) : M unit := λ w,
  match sys_mkdir (cwd w) (fs w) path with
  | inr t' => (inr (), set_fs t' w)
  | inl e => (inl (OSError e), w)
  end.

Definition exists_in (w : world) (path : string) : bool :=
  match sys_stat (cwd w) (fs w) path with inr _ => true | inl _ => false end.

Definition isdir_in (w : world) (path : string) : bool :=
  match sys_stat (cwd w) (fs w) path with inr Dir => true | _ => false end.

(** [os.path.isfile], read off a world *)
Definition isfile_in (w : world) (path : string) : bool :=
  match sys_stat (cwd w) (fs w) path with inr File => true | _ => false end.

Definition path_exists (path : string) : M bool := λ w, (inr (exists_in w path), w).

Definition path_isdir (path : string) : M bool := λ w, (inr (isdir_in w path), w).

(** The world after [print(s)]: the text and a line break go to the
    console. *)
Definition say (s : string) (w : world) : world :=
  World (cwd w) (fs w) (stdout w +:+ s +:+ newline).

Definition print (s : string) : M unit := λ w, (inr (), say s w).

(** ** [os.makedirs]

    The recursion is on [head], a proper prefix of [name]; [fuel] bounds
    its depth.  [present] is the negation of the guard
    [head and tail and not path.exists(head)]; [returned] tells that the
    early [return] for a trailing [.] was taken. *)
Fixpoint makedirs_fuel (fuel : nat) (name : string) (exist_ok : bool) : M unit :=
  let '(head, tail) := split name in
  let '(head, tail) := if nonempty tail then (head, tail) else split head in
  present ← (if nonempty head && nonempty tail then path_exists head
             else mret true);
  returned ←
    (if negb present then
       match fuel with
       | 0 => raise OutOfFuel
       | S fuel' =>
           try_except (makedirs_fuel fuel' head exist_ok)
             (λ e, match e with
                   | OSError EEXIST => mret ()
                   | _ => raise e
                   end);;
           mret (tail =? ".")
       end
     else mret false);
  if (returned : bool) then mret ()
  else
    try_except (mkdir name)
      (λ e, match e with
            | OSError _ =>
                isd ← path_isdir name;
                if negb exist_ok || negb isd then raise e else mret ()
            | _ => raise e
            end).

Definition makedirs (name : string) (exist_ok : bool) : M unit :=
  makedirs_fuel (String.length name) name exist_ok.

(** ** The script *)

Definition base_dir : string := "d:\flutter_projects\flutter_bloc_tutorial\lib".

Definition directories : list string :=
  [ "core/error";
    "core/usecases";
    "features/user/domain/entities";
    "features/user/domain/repositories";
    "features/user/domain/usecases";
    "features/user/data/datasources";
    "features/user/data/models";
    "features/user/data/repositories";
    "features/user/presentation/bloc";
    "features/user/presentation/screens";
    "features/user/presentation/widgets";
    "features/post/domain/entities";
    "features/post/domain/repositories";
    "features/post/domain/usecases";
    "features/post/data/datasources";
    "features/post/data/models";
    "features/post/data/repositories";
    "features/post/presentation/cubit";
    "features/post/presentation/screens";
    "features/post/presentation/widgets";
    "features/product/domain/entities";
    "features/product/domain/repositories";
    "features/product/domain/usecases";
    "features/product/data/datasources";
    "features/product/data/models";
    "features/product/data/repositories";
    "features/product/presentation/bloc";
    "features/product/presentation/screens";
    "features/product/presentation/widgets" ].

(** [for x in xs: body] *)
Fixpoint for_each {A} (xs : list A) (body : A → M unit) : M unit :=
  match xs with
  | [] => mret ()
  | x :: xs' => body x;; for_each xs' body
  end.

Definition scaffold (base : string) (dirs : list string) : M unit :=
  for_each dirs (λ directory,
    let path := join base directory in
    makedirs path true;;
    print ("Created: " +:+ path));;
  print (newline +:+ "Directory structure created successfully!").

Definition main : M unit := scaffold base_dir directories.

(** The body of the loop of [scaffold], and what a run writes. *)
Definition create (base directory : string) : M unit :=
  let path := join base directory in
  makedirs path true;;
  print ("Created: " +:+ path).

Definition created_lines (base : string) (dirs : list string) : string :=
  String.concat "" (map (λ e, "Created: " +:+ join base e +:+ newline) dirs).

Definition summary : string :=
  newline +:+ "Directory structure created successfully!" +:+ newline.

(** [s.splitlines()], for the line break [print] writes *)
Fixpoint lines (s : string) : list string :=
  match s with
  | EmptyString => []
  | String c r =>
      if Ascii.eqb c (ascii_of_nat 10) then EmptyString :: lines r
      else match lines r with
           | [] => [String c EmptyString]
           | l :: ls => String c l :: ls
           end
  end.

Fixpoint no_newline (s : string) : bool :=
  match s with
  | EmptyString => true
  | String c r => negb (Ascii.eqb c (ascii_of_nat 10)) && no_newline r
  end.

(** The tree as the specification words it: the two core folders, then
    for each feature the nine folders of its three layers, the state
    folder of the presentation layer being [bloc], or [cubit] for [post]. *)
Definition spec_feature (feature state : string) : list string :=
  map (λ folder, "features/" +:+ feature +:+ "/" +:+ folder)
    [ "domain/entities"; "domain/repositories"; "domain/usecases";
      "data/datasources"; "data/models"; "data/repositories";
      "presentation/" +:+ state; "presentation/screens";
      "presentation/widgets" ].

Definition spec_tree : list string :=
  ["core/error"; "core/usecases"]
  ++ spec_feature "user" "bloc"
  ++ spec_feature "post" "cubit"
  ++ spec_feature "product" "bloc".

(** Sample worlds: a home directory with an empty console; the same after
    a run of the script, the console cleared; and one where
    [/tmp/proj/lib/features] is a regular file. *)
Definition home : world :=
  World ["home"; "u"]
    (list_to_map [(["home"], Dir); (["home"; "u"], Dir); (["tmp"], Dir)]) "".

Definition home_done : world :=
  World (cwd home) (fs (main home).2) "".

Definition home_conflict : world :=
  World ["home"; "u"]
    (list_to_map
       [(["home"], Dir); (["home"; "u"], Dir); (["tmp"], Dir);
        (["tmp"; "proj"], Dir); (["tmp"; "proj"; "lib"], Dir);
        (["tmp"; "proj"; "lib"; "features"], File)]) "".

Definition sample_base : string := "/tmp/proj/lib".
Definition sample_dirs : list string :=
  ["core/error"; "features/user/domain/entities"].

(** ** Well-formed inputs and their locations

    The entries are slash-delimited relative paths and the base directory
    is a path in normal form: every segment is a proper name, so neither
    empty nor [.] nor [..]. *)

Fixpoint sep_free (s : string) : bool :=
  match s with
  | EmptyString => true
  | String c r => negb (is_sep c) && sep_free r
  end.

Definition name_ok (c : string) : bool :=
  nonempty c && negb (c =? ".") && negb (c =? "..").

Definition relative_ok (e : string) : bool := forallb name_ok (segments e).

Definition base_ok (b : string) : bool :=
  if startswith_sep b
  then negb (nonempty (drop_str 1 b)) || relative_ok (drop_str 1 b)
  else relative_ok b.

Definition good (c : string) : Prop := name_ok c = true ∧ sep_free c = true.

Definition lead_of (abs : bool) : string := if abs then "/" else "".

Definition path_of (abs : bool) (segs : list string) : string :=
  lead_of abs +:+ String.concat "/" segs.

Definition start_of (cwd : location) (abs : bool) : location :=
  if abs then [] else cwd.

(** The locations of the ancestors of [start ++ segs] below [start], and
    of [start ++ segs] itself, outermost first. *)
Fixpoint prefixes (start : location) (segs : list string) : list location :=
  match segs with
  | [] => []
  | c :: r => (start ++ [c]) :: prefixes (start ++ [c]) r
  end.

(** The locations a run over [dirs] goes through, the base directory
    having the segments [bsegs] below [start]. *)
Definition all_locs (start : location) (bsegs : list string)
    (dirs : list string) : list location :=
  dirs ≫= λ e, prefixes start (bsegs ++ segments e).

(** A tree holding a directory at each of the given locations. *)
Definition added (ps : list location) : tree :=
  gset_to_gmap Dir (list_to_set ps).

(** The last step of [makedirs name exist_ok]: the [try: mkdir(name)]
    block, which the embedding above has inline. *)
Definition mkdir_last (name : string) (exist_ok : bool) : M unit :=
  try_except (mkdir name)
    (λ e, match e with
          | OSError _ =>
              isd ← path_isdir name;
              if negb exist_ok || negb isd then raise e else mret ()
          | _ => raise e
          end).

(** The only changes a run makes to the world: directories are added and
    the console grows; here for the file system and the working directory. *)
Definition extends (w w' : world) : Prop :=
  cwd w' = cwd w ∧ fs w ⊆ fs w'.

(** A statement that leaves the console alone and only adds to the tree. *)
Definition quiet {A} (m : M A) : Prop :=
  ∀ w r w', m w = (r, w') → extends w w' ∧ stdout w' = stdout w.

(** A statement that never runs out of fuel. *)
Definition fueled {A} (m : M A) : Prop :=
  ∀ w r w', m w = (r, w') → r ≠ inl OutOfFuel.

(** What stands in the way of creating [start ++ segs]: nothing, when
    [start] is a directory and no location on the way is a regular file. *)
Definition clear_way (w : world) (abs : bool) (segs : list string) : Prop :=
  node_at (fs w) (start_of (cwd w) abs) = Some Dir ∧
  Forall (λ p, fs w !! p ≠ Some File) (prefixes (start_of (cwd w) abs) segs).

(** ** Relations between the worlds before and after a statement *)

(** Every pair of a world and the world a statement leaves is in [R]. *)
Definition respects (R : world → world → Prop) {A} (m : M A) : Prop :=
  ∀ w r w', m w = (r, w') → R w w'.

(** Nothing is removed or changed, and what is new is a directory. *)
Definition grows (w w' : world) : Prop :=
  cwd w' = cwd w ∧ fs w ⊆ fs w' ∧
  ∀ p, fs w !! p = None → fs w' !! p = None ∨ fs w' !! p = Some Dir.

(** A tree in which every node hangs below a directory. *)
Definition closed (t : tree) : Prop :=
  map_Forall (λ p _, node_at t (removelast p) = Some Dir) t.

Definition keeps_closed (w w' : world) : Prop :=
  closed (fs w) → closed (fs w').

(** ** The ways of a run, read off the base directory and the entries *)

(** Whether the base directory is absolute, and its segments. *)
Definition base_abs (base : string) : bool := startswith_sep base.

Definition base_segs (base : string) : list string :=
  if startswith_sep base
  then (if nonempty (drop_str 1 base) then segments (drop_str 1 base) else [])
  else segments base.

(** Nothing stands in the way of creating [join base e]. *)
Definition way_clear (w : world) (base e : string) : Prop :=
  clear_way w (base_abs base) (base_segs base ++ segments e).

(** The locations of [join base e] for the entries [e] of [dirs], and of
    all their ancestors that [base] names. *)
Definition ways (w : world) (base : string) (dirs : list string)
  : list location :=
  all_locs (start_of (cwd w) (base_abs base)) (base_segs base) dirs.

(** * Lemmas on strings *)

Lemma str_app_cons c (a b : string) : String c a +:+ b = String c (a +:+ b).
Proof. done. Qed.

Lemma str_app_nil_l (a : string) : "" +:+ a = a.
Proof. done. Qed.

Local Ltac str_simpl :=
  repeat (progress (rewrite ?str_app_cons, ?str_app_nil_l; simpl)).

Lemma str_app_assoc (a b c : string) : (a +:+ b) +:+ c = a +:+ (b +:+ c).
Proof. induction a as [|x a IH]; str_simpl; [done | by rewrite IH]. Qed.

Lemma str_app_nil_r (a : string) : a +:+ "" = a.
Proof. induction a as [|x a IH]; str_simpl; [done | by rewrite IH]. Qed.

Lemma str_length_app (a b : string) :
  String.length (a +:+ b) = String.length a + String.length b.
Proof. induction a as [|x a IH]; str_simpl; [done | by rewrite IH]. Qed.

Lemma is_sep_true c : is_sep c = true → c = "/"%char.
Proof. unfold is_sep. by intros ?%Ascii.eqb_eq. Qed.

Lemma nonempty_app_r a b : nonempty b = true → nonempty (a +:+ b) = true.
Proof. by destruct a, b. Qed.

Lemma nonempty_true s : nonempty s = true → s ≠ "".
Proof. by destruct s. Qed.

Lemma rfind_succ_sep_free s : sep_free s = true → rfind_succ s = 0.
Proof.
  induction s as [|c s IH]; simpl; [done|].
  intros [Hc Hs]%andb_prop. rewrite (IH Hs).
  by destruct (is_sep c).
Qed.

Lemma rfind_succ_app a b :
  sep_free b = true →
  rfind_succ (a +:+ "/" +:+ b) = S (String.length a).
Proof.
  intros Hb. change ("/" +:+ b) with (String "/" b).
  induction a as [|c a IH]; str_simpl.
  - by rewrite (rfind_succ_sep_free _ Hb).
  - by rewrite IH.
Qed.

Lemma take_str_app a b : take_str (String.length a) (a +:+ b) = a.
Proof. induction a as [|c a IH]; str_simpl; [by destruct b | by rewrite IH]. Qed.

Lemma drop_str_app a b : drop_str (String.length a) (a +:+ b) = b.
Proof. induction a as [|c a IH]; str_simpl; [by destruct b | done]. Qed.

Lemma all_sep_app a b : all_sep (a +:+ b) = all_sep a && all_sep b.
Proof.
  induction a as [|c a IH]; str_simpl; [done|].
  by rewrite IH, andb_assoc.
Qed.

Lemma all_sep_sep_free s :
  sep_free s = true → nonempty s = true → all_sep s = false.
Proof.
  destruct s as [|c s]; simpl; [done|].
  intros [Hc _]%andb_prop _. by destruct (is_sep c).
Qed.

Lemma rstrip_sep_snoc_sep a : rstrip_sep (a +:+ "/") = rstrip_sep a.
Proof. induction a as [|c a IH]; str_simpl; [done | by rewrite IH]. Qed.

Lemma rstrip_sep_sep_free s : sep_free s = true → rstrip_sep s = s.
Proof.
  induction s as [|c s IH]; simpl; [done|].
  intros [Hc Hs]%andb_prop. rewrite (IH Hs).
  destruct s; [|done]. by destruct (is_sep c).
Qed.

Lemma rstrip_sep_app a b :
  rstrip_sep b ≠ "" → rstrip_sep (a +:+ b) = a +:+ rstrip_sep b.
Proof.
  intros Hb. induction a as [|c a IH]; str_simpl; [done|].
  rewrite IH. destruct (a +:+ rstrip_sep b) eqn:E; [|done].
  destruct a; [done | discriminate].
Qed.

Lemma segments_nonnil s : segments s ≠ [].
Proof.
  destruct s as [|c s]; simpl; [done|].
  destruct (is_sep c); [done|]. by destruct (segments s).
Qed.

Lemma segments_sep_free_one s : sep_free s = true → segments s = [s].
Proof.
  induction s as [|c s IH]; simpl; [done|].
  intros [Hc Hs]%andb_prop. rewrite (IH Hs).
  by destruct (is_sep c).
Qed.

Lemma segments_app a b :
  sep_free a = true → segments (a +:+ "/" +:+ b) = a :: segments b.
Proof.
  change ("/" +:+ b) with (String "/" b).
  induction a as [|c a IH]; str_simpl; [done|].
  intros [Hc Ha]%andb_prop. rewrite (IH Ha).
  by destruct (is_sep c).
Qed.

Lemma segments_sep_free s : Forall (λ x, sep_free x = true) (segments s).
Proof.
  induction s as [|c s IH]; simpl; [by repeat constructor|].
  destruct (is_sep c) eqn:Hc; [by constructor|].
  destruct (segments s) as [|x xs]; [by repeat constructor; simpl; rewrite Hc|].
  inversion_clear IH. constructor; [|done]. simpl. by rewrite Hc.
Qed.

Lemma concat_cons_String c x xs :
  String.concat "/" (String c x :: xs) = String c (String.concat "/" (x :: xs)).
Proof. by destruct xs. Qed.

Lemma concat_segments s : String.concat "/" (segments s) = s.
Proof.
  induction s as [|c s IH]; [done|]. simpl segments.
  destruct (is_sep c) eqn:Hc.
  - apply is_sep_true in Hc as ->.
    pose proof (segments_nonnil s).
    destruct (segments s); [done|]. simpl in *. by rewrite IH.
  - pose proof (segments_nonnil s).
    destruct (segments s); [done|]. by rewrite concat_cons_String, IH.
Qed.

Lemma concat_cons_cons x y ys :
  String.concat "/" (x :: y :: ys) = x +:+ "/" +:+ String.concat "/" (y :: ys).
Proof. done. Qed.

Lemma concat_snoc xs c :
  xs ≠ [] →
  String.concat "/" (xs ++ [c]) = String.concat "/" xs +:+ "/" +:+ c.
Proof.
  induction xs as [|x [|y ys] IH]; [done|done|].
  intros _. change ((x :: y :: ys) ++ [c]) with (x :: y :: (ys ++ [c])).
  rewrite !concat_cons_cons.
  change (y :: (ys ++ [c])) with ((y :: ys) ++ [c]).
  rewrite IH by done. by rewrite !str_app_assoc.
Qed.

Lemma segments_concat xs :
  xs ≠ [] → Forall (λ x, sep_free x = true) xs →
  segments (String.concat "/" xs) = xs.
Proof.
  induction xs as [|x [|y ys] IH]; [done| |].
  - intros _ Hx. inversion_clear Hx. by apply segments_sep_free_one.
  - intros _ Hx. inversion_clear Hx.
    rewrite concat_cons_cons, segments_app by done.
    by rewrite IH.
Qed.

(** * Well-formed paths *)

Lemma name_ok_inv c :
  name_ok c = true → nonempty c = true ∧ c ≠ "." ∧ c ≠ "..".
Proof.
  unfold name_ok. intros [[H1 H2]%andb_prop H3]%andb_prop.
  apply negb_true_iff, String.eqb_neq in H2, H3. done.
Qed.

Lemma good_nonempty c : good c → nonempty c = true.
Proof. intros [H _]. by apply name_ok_inv in H as [? _]. Qed.

Lemma good_not_all_sep c : good c → all_sep c = false.
Proof.
  intros Hc. apply all_sep_sep_free; [apply Hc | by apply good_nonempty].
Qed.

Lemma good_startswith c : good c → startswith_sep c = false.
Proof.
  intros [H1 H2]. destruct c as [|x c]; [done|]. simpl in *.
  apply andb_prop in H2 as [H2 _]. by destruct (is_sep x).
Qed.

Lemma endswith_sep_app a b :
  nonempty b = true → endswith_sep (a +:+ b) = endswith_sep b.
Proof.
  intros Hb. induction a as [|x a IH]; str_simpl; [done|].
  rewrite <-IH. destruct (a +:+ b) eqn:E; [|done].
  destruct a, b; done.
Qed.

Lemma endswith_sep_sep_free s : sep_free s = true → endswith_sep s = false.
Proof.
  induction s as [|x s IH]; simpl; [done|].
  intros [Hx Hs]%andb_prop. destruct s; [by destruct (is_sep x) | auto].
Qed.

Lemma concat_app xs ys :
  xs ≠ [] → ys ≠ [] →
  String.concat "/" (xs ++ ys) =
  String.concat "/" xs +:+ "/" +:+ String.concat "/" ys.
Proof.
  intros Hxs Hys. induction xs as [|x [|y xs] IH]; [done| |].
  - destruct ys; done.
  - change ((x :: y :: xs) ++ ys) with (x :: y :: (xs ++ ys)).
    rewrite !concat_cons_cons.
    change (y :: (xs ++ ys)) with ((y :: xs) ++ ys).
    rewrite IH by done. by rewrite !str_app_assoc.
Qed.

Lemma concat_good_nonempty xs :
  xs ≠ [] → Forall good xs → nonempty (String.concat "/" xs) = true.
Proof.
  destruct xs as [|x [|y ys]]; [done| |]; intros _ H; inversion_clear H.
  - by apply good_nonempty.
  - rewrite concat_cons_cons.
    assert (nonempty x = true) by by apply good_nonempty.
    by destruct x.
Qed.

Lemma concat_good_startswith xs :
  Forall good xs → startswith_sep (String.concat "/" xs) = false.
Proof.
  destruct xs as [|x [|y ys]]; [done| |]; intros H; inversion_clear H.
  - by apply good_startswith.
  - rewrite concat_cons_cons.
    assert (nonempty x = true) by by apply good_nonempty.
    assert (startswith_sep x = false) by by apply good_startswith.
    by destruct x.
Qed.

Lemma Forall_good_sep_free xs :
  Forall good xs → Forall (λ x, sep_free x = true) xs.
Proof. intros H. eapply Forall_impl; [done|]. by intros ? [_ ?]. Qed.

Lemma forallb_name_ok_segments s :
  forallb name_ok (segments s) = true → Forall good (segments s).
Proof.
  intros H. apply Forall_forall. intros x Hx. split.
  - rewrite forallb_forall in H. apply H. by apply list_elem_of_In.
  - pose proof (segments_sep_free s) as Hs.
    rewrite Forall_forall in Hs. by apply Hs.
Qed.

Lemma relative_ok_inv e :
  relative_ok e = true →
  ∃ segs, segs ≠ [] ∧ Forall good segs ∧ e = path_of false segs.
Proof.
  unfold relative_ok. intros H. exists (segments e). split_and!.
  - apply segments_nonnil.
  - by apply forallb_name_ok_segments.
  - unfold path_of. simpl. by rewrite concat_segments.
Qed.

Lemma base_ok_inv b :
  base_ok b = true →
  ∃ abs segs, Forall good segs ∧ (abs = true ∨ segs ≠ []) ∧ b = path_of abs segs.
Proof.
  unfold base_ok. destruct (startswith_sep b) eqn:Hb.
  - destruct b as [|c r]; [done|]. simpl in Hb. apply is_sep_true in Hb as ->.
    simpl. intros [H|H]%orb_prop.
    + exists true, []. destruct r; [|done]. by split_and!; [constructor|left|].
    + exists true, (segments r). split_and!.
      * by apply forallb_name_ok_segments.
      * by left.
      * unfold path_of. by rewrite concat_segments.
  - intros (segs & ? & ? & ->)%relative_ok_inv. exists false, segs. eauto.
Qed.

Lemma path_of_startswith abs segs :
  Forall good segs → startswith_sep (path_of abs segs) = abs.
Proof.
  intros H. destruct abs; [done|]. unfold path_of. simpl.
  by apply concat_good_startswith.
Qed.

Lemma path_of_nonempty abs segs :
  abs = true ∨ segs ≠ [] → Forall good segs →
  nonempty (path_of abs segs) = true.
Proof.
  intros Habs H. destruct abs; [done|]. destruct Habs as [|Hn]; [done|].
  unfold path_of. simpl. by apply concat_good_nonempty.
Qed.

Lemma path_of_snoc abs segs c :
  segs ≠ [] →
  path_of abs (segs ++ [c]) = path_of abs segs +:+ "/" +:+ c.
Proof.
  intros H. unfold path_of. by rewrite concat_snoc, str_app_assoc.
Qed.

Lemma path_of_app abs xs ys :
  xs ≠ [] → ys ≠ [] →
  path_of abs (xs ++ ys) = path_of abs xs +:+ "/" +:+ String.concat "/" ys.
Proof.
  intros. unfold path_of. by rewrite concat_app, str_app_assoc.
Qed.

Lemma path_of_endswith abs segs :
  segs ≠ [] → Forall good segs → endswith_sep (path_of abs segs) = false.
Proof.
  intros Hn H. destruct segs as [|c segs _] using rev_ind; [done|].
  apply Forall_app in H as [_ Hc]. inversion_clear Hc as [|?? Hc' _].
  destruct (decide (segs = [])) as [->|Hs].
  - unfold path_of. simpl String.concat.
    rewrite endswith_sep_app by by apply good_nonempty.
    apply endswith_sep_sep_free, Hc'.
  - rewrite path_of_snoc, <-str_app_assoc by done.
    rewrite endswith_sep_app by by apply good_nonempty.
    apply endswith_sep_sep_free, Hc'.
Qed.

Lemma join_good abs bsegs esegs :
  abs = true ∨ bsegs ≠ [] → Forall good bsegs →
  esegs ≠ [] → Forall good esegs →
  join (path_of abs bsegs) (path_of false esegs) = path_of abs (bsegs ++ esegs).
Proof.
  intros Habs Hb Hne He. unfold join.
  rewrite (path_of_startswith false), (path_of_nonempty abs) by done. simpl.
  destruct (decide (bsegs = [])) as [->|Hbn].
  - destruct Habs as [->|]; done.
  - rewrite path_of_endswith by done. by rewrite path_of_app.
Qed.

Lemma path_of_not_all_sep abs segs :
  segs ≠ [] → Forall good segs → all_sep (path_of abs segs) = false.
Proof.
  intros Hn H. unfold path_of. rewrite all_sep_app.
  destruct segs as [|x [|y ys]]; [done| |]; inversion_clear H.
  - simpl. rewrite (good_not_all_sep x) by done. apply andb_false_r.
  - rewrite concat_cons_cons, all_sep_app, (good_not_all_sep x) by done.
    apply andb_false_r.
Qed.

Lemma path_of_rstrip abs segs :
  segs ≠ [] → Forall good segs →
  rstrip_sep (path_of abs segs) = path_of abs segs.
Proof.
  intros Hn H. destruct segs as [|c segs _] using rev_ind; [done|].
  apply Forall_app in H as [_ Hc]. inversion_clear Hc as [|?? Hc' _].
  assert (rstrip_sep c = c) as Hr by apply rstrip_sep_sep_free, Hc'.
  assert (c ≠ "") as Hne by by apply nonempty_true, good_nonempty.
  destruct (decide (segs = [])) as [->|Hs].
  - unfold path_of. simpl String.concat.
    rewrite rstrip_sep_app; by rewrite Hr.
  - rewrite path_of_snoc, <-str_app_assoc by done.
    rewrite rstrip_sep_app; by rewrite Hr.
Qed.

Lemma split_good abs segs c :
  Forall good (segs ++ [c]) →
  split (path_of abs (segs ++ [c])) =
  (if decide (segs = []) then lead_of abs else path_of abs segs, c).
Proof.
  intros [Hs Hc]%Forall_app. inversion_clear Hc as [|?? Hc' _].
  assert (sep_free c = true) as Hsf by apply Hc'.
  unfold split. destruct (decide (segs = [])) as [->|Hn].
  - unfold path_of. simpl String.concat. destruct abs; simpl lead_of.
    + change ("/" +:+ c) with (String "/" c). simpl.
      rewrite rfind_succ_sep_free by done. simpl. by destruct c.
    + rewrite str_app_nil_l, rfind_succ_sep_free by done.
      simpl. by destruct c.
  - rewrite path_of_snoc by done.
    rewrite rfind_succ_app by done.
    set (a := path_of abs segs).
    rewrite <-(str_app_assoc a "/" c).
    replace (S (String.length a)) with (String.length (a +:+ "/"))
      by (rewrite str_length_app; simpl; lia).
    rewrite take_str_app, drop_str_app.
    rewrite nonempty_app_r, all_sep_app by done. subst a.
    rewrite path_of_not_all_sep by done. simpl.
    by rewrite rstrip_sep_snoc_sep, path_of_rstrip.
Qed.

Lemma segments_path_of abs segs :
  segs ≠ [] → Forall good segs →
  segments (path_of abs segs) = (if abs then [""] else []) ++ segs.
Proof.
  intros Hn H%Forall_good_sep_free. unfold path_of.
  destruct abs; simpl lead_of.
  - change ("/" +:+ String.concat "/" segs)
      with (String "/" (String.concat "/" segs)).
    simpl. by rewrite segments_concat.
  - rewrite str_app_nil_l. by rewrite segments_concat.
Qed.

(** * Path resolution *)

Lemma step_good cur c : good c → step cur c = cur ++ [c].
Proof.
  intros [(H1 & H2 & H3)%name_ok_inv _]. unfold step.
  apply nonempty_true in H1.
  apply String.eqb_neq in H1, H2, H3. by rewrite H1, H2, H3.
Qed.

Lemma node_at_snoc t q c : node_at t (q ++ [c]) = t !! (q ++ [c]).
Proof. by destruct q. Qed.

Lemma node_at_mono t t' p k :
  t ⊆ t' → node_at t p = Some k → node_at t' p = Some k.
Proof.
  intros Hsub. destruct p; [done|]. simpl. intros H. by eapply lookup_weaken.
Qed.

Lemma walk_mono t t' cur cs r :
  t ⊆ t' → walk t cur cs = inr r → walk t' cur cs = inr r.
Proof.
  intros Hsub. revert cur. induction cs as [|c cs IH]; intros cur; simpl.
  - destruct (node_at t cur) as [k|] eqn:E; [|done].
    by rewrite (node_at_mono _ _ _ _ Hsub E).
  - destruct (node_at t cur) as [[]|] eqn:E; [|done|done].
    rewrite (node_at_mono _ _ _ _ Hsub E). apply IH.
Qed.

Lemma walk_app t cur xs y ys :
  walk t cur (xs ++ y :: ys) =
  match walk t cur xs with
  | inr (q, Dir) => walk t q (y :: ys)
  | inr (_, File) => inl ENOTDIR
  | inl e => inl e
  end.
Proof.
  revert cur. induction xs as [|x xs IH]; intros cur.
  - simpl. destruct (node_at t cur) as [[]|] eqn:E; simpl; by rewrite ?E.
  - simpl app. simpl walk at 1 2.
    destruct (node_at t cur) as [[]|]; [|done|done]. apply IH.
Qed.

Lemma walk_good_loc t cur segs q k :
  Forall good segs → walk t cur segs = inr (q, k) → q = cur ++ segs.
Proof.
  intros H. revert cur. induction H as [|c segs Hc _ IH]; intros cur; simpl.
  - destruct (node_at t cur); [|done]. intros [= <- _]. by rewrite app_nil_r.
  - destruct (node_at t cur) as [[]|]; [|done|done].
    rewrite step_good by done. intros ->%IH. by rewrite <-app_assoc.
Qed.

Lemma strip_empty_end_snoc xs c :
  nonempty c = true → strip_empty_end (xs ++ [c]) = xs ++ [c].
Proof.
  intros Hc. induction xs as [|x xs IH]; simpl.
  - by rewrite Hc.
  - rewrite IH. by destruct xs.
Qed.

Lemma sys_stat_good cwd t abs segs :
  segs ≠ [] → Forall good segs →
  sys_stat cwd t (path_of abs segs) =
  match walk t (start_of cwd abs) segs with
  | inr (_, k) => inr k
  | inl e => inl e
  end.
Proof.
  intros Hn H. unfold sys_stat, origin.
  rewrite path_of_nonempty, path_of_startswith, segments_path_of by auto.
  by destruct abs.
Qed.

Lemma sys_mkdir_good cwd t abs segs c :
  Forall good (segs ++ [c]) →
  sys_mkdir cwd t (path_of abs (segs ++ [c])) =
  match walk t (start_of cwd abs) segs with
  | inl e => inl e
  | inr (_, File) => inl ENOTDIR
  | inr (dir, Dir) =>
      match t !! (dir ++ [c]) with
      | Some _ => inl EEXIST
      | None => inr (<[dir ++ [c] := Dir]> t)
      end
  end.
Proof.
  intros H. pose proof H as [Hs Hc]%Forall_app.
  inversion_clear Hc as [|?? Hc' _].
  assert (segs ++ [c] ≠ []) as Hn by by destruct segs.
  unfold sys_mkdir, origin.
  rewrite path_of_nonempty, path_of_startswith, segments_path_of by auto.
  rewrite app_assoc, strip_empty_end_snoc by by apply good_nonempty.
  rewrite rev_app_distr. simpl. rewrite rev_involutive.
  destruct Hc' as [(H1 & H2 & H3)%name_ok_inv _].
  apply String.eqb_neq in H2, H3. rewrite H2, H3. simpl.
  by destruct abs.
Qed.

(** * [os.makedirs] on well-formed paths *)

Lemma exists_in_root w : exists_in w "/" = true.
Proof. done. Qed.

Lemma makedirs_fuel_good fuel abs segs c w :
  Forall good (segs ++ [c]) →
  makedirs_fuel fuel (path_of abs (segs ++ [c])) true w =
  if bool_decide (segs ≠ []) && negb (exists_in w (path_of abs segs)) then
    match fuel with
    | 0 => (inl OutOfFuel, w)
    | S fuel' =>
        match makedirs_fuel fuel' (path_of abs segs) true w with
        | (inr _, w') | (inl (OSError EEXIST), w') =>
            mkdir_last (path_of abs (segs ++ [c])) true w'
        | (inl e, w') => (inl e, w')
        end
    end
  else mkdir_last (path_of abs (segs ++ [c])) true w.
Proof.
  intros H. pose proof H as [Hs Hc]%Forall_app.
  inversion_clear Hc as [|?? Hc' _].
  destruct fuel as [|fuel']; unfold makedirs_fuel; fold makedirs_fuel.
  all: rewrite split_good by done.
  all: rewrite (good_nonempty c) by done.
  all: fold (mkdir_last (path_of abs (segs ++ [c])) true).
  all: assert ((c =? ".") = false) as Hdot
    by (apply String.eqb_neq; by destruct Hc' as [(_ & ? & _)%name_ok_inv _]).
  all: unfold mbind, M_bind, mret, M_ret, path_exists, raise, try_except.
  all: destruct (decide (segs = [])) as [->|Hn].
  all: rewrite ?(good_nonempty c) by done.
  all: try (rewrite bool_decide_false by (by intros []);
            destruct abs; simpl; by rewrite ?exists_in_root).
  all: rewrite bool_decide_true by auto. all: rewrite path_of_nonempty by auto. all: simpl.
  all: destruct (exists_in w (path_of abs segs)); simpl; [done|]; try done.
  destruct (makedirs_fuel fuel' (path_of abs segs) true w) as [[[[]|]|[]] w'];
    by rewrite ?Hdot.
Qed.

(** * Trees with added directories *)

Lemma lookup_added ps p :
  added ps !! p = if decide (p ∈ ps) then Some Dir else None.
Proof.
  unfold added. destruct (decide (p ∈ ps)) as [Hin|Hin].
  - apply lookup_gset_to_gmap_Some. split; [|done]. by apply elem_of_list_to_set.
  - apply lookup_gset_to_gmap_None. by rewrite elem_of_list_to_set.
Qed.

Lemma lookup_union_added (t : tree) ps p :
  (t ∪ added ps) !! p =
  match t !! p with
  | Some k => Some k
  | None => if decide (p ∈ ps) then Some Dir else None
  end.
Proof.
  rewrite lookup_union, lookup_added.
  destruct (t !! p), (decide (p ∈ ps)); done.
Qed.

Lemma union_added_subseteq (t : tree) ps : t ⊆ t ∪ added ps.
Proof. apply map_union_subseteq_l. Qed.

Lemma union_added_present (t : tree) ps :
  Forall (λ p, is_Some (t !! p)) ps → t ∪ added ps = t.
Proof.
  intros H. apply map_eq. intros p. rewrite lookup_union_added.
  destruct (t !! p) eqn:E; [done|]. destruct (decide (p ∈ ps)) as [Hin|]; [|done].
  rewrite Forall_forall in H. apply H in Hin as [? Hin]. congruence.
Qed.

Lemma union_added_app (t : tree) ps qs :
  t ∪ added ps ∪ added qs = t ∪ added (ps ++ qs).
Proof.
  apply map_eq. intros p. rewrite !lookup_union_added.
  destruct (t !! p); [done|].
  destruct (decide (p ∈ ps)) as [Hp|Hp], (decide (p ∈ qs)) as [Hq|Hq],
    (decide (p ∈ ps ++ qs)) as [Hpq|Hpq]; try done.
  all: rewrite elem_of_app in Hpq; tauto.
Qed.

Lemma insert_union_added (t : tree) ps p :
  (t ∪ added ps) !! p = None →
  <[p := Dir]> (t ∪ added ps) = t ∪ added (ps ++ [p]).
Proof.
  intros Hp. apply map_eq. intros q.
  destruct (decide (p = q)) as [<-|Hne].
  - rewrite lookup_insert_eq, lookup_union_added.
    rewrite lookup_union_added in Hp. destruct (t !! p); [done|].
    rewrite decide_True; [done|].
    rewrite elem_of_app, list_elem_of_singleton. by right.
  - rewrite lookup_insert_ne by done. rewrite !lookup_union_added.
    destruct (t !! q); [done|].
    destruct (decide (q ∈ ps)) as [Hq|Hq],
      (decide (q ∈ ps ++ [p])) as [Hqp|Hqp]; try done.
    all: rewrite elem_of_app, list_elem_of_singleton in Hqp.
    + destruct Hqp. by left.
    + by destruct Hqp as [?| ->].
Qed.

Lemma union_added_snoc_present (t : tree) ps p :
  is_Some ((t ∪ added ps) !! p) → t ∪ added ps = t ∪ added (ps ++ [p]).
Proof.
  intros Hp. rewrite <-union_added_app.
  symmetry. apply union_added_present. by constructor.
Qed.

Lemma union_added_file (t : tree) ps p :
  (t ∪ added ps) !! p = Some File ↔ t !! p = Some File.
Proof.
  rewrite lookup_union_added. destruct (t !! p); [done|].
  by destruct (decide (p ∈ ps)).
Qed.

Lemma added_ext ps qs : (∀ p, p ∈ ps ↔ p ∈ qs) → added ps = added qs.
Proof.
  intros H. apply map_eq. intros p. rewrite !lookup_added.
  destruct (decide (p ∈ ps)) as [Hp|Hp], (decide (p ∈ qs)) as [Hq|Hq];
    try done; apply H in Hp || apply H in Hq; done.
Qed.

Lemma prefixes_snoc start segs c :
  prefixes start (segs ++ [c]) = prefixes start segs ++ [start ++ segs ++ [c]].
Proof.
  revert start. induction segs as [|x segs IH]; intros start; simpl; [done|].
  by rewrite IH, <-!app_assoc.
Qed.

(** * The statements of [makedirs] only add directories *)

Lemma extends_refl w : extends w w.
Proof. by split. Qed.

Lemma extends_trans w1 w2 w3 : extends w1 w2 → extends w2 w3 → extends w1 w3.
Proof.
  intros [H1 H2] [H3 H4]. split; [congruence|]. by etrans.
Qed.

Lemma quiet_ret {A} (a : A) : quiet (mret a).
Proof. intros w r w' [= <- <-]. split; [apply extends_refl | done]. Qed.

Lemma quiet_raise {A} e : quiet (raise e : M A).
Proof. intros w r w' [= <- <-]. split; [apply extends_refl | done]. Qed.

Lemma quiet_bind {A B} (m : M A) (f : A → M B) :
  quiet m → (∀ a, quiet (f a)) → quiet (m ≫= f).
Proof.
  intros Hm Hf w r w'. unfold mbind, M_bind.
  destruct (m w) as [[e|a] w1] eqn:E; apply Hm in E as [E1 E2].
  - by intros [= <- <-].
  - intros [E3 E4]%Hf. split; [by eapply extends_trans | congruence].
Qed.

Lemma quiet_try_except {A} (m : M A) (h : exn → M A) :
  quiet m → (∀ e, quiet (h e)) → quiet (try_except m h).
Proof.
  intros Hm Hh w r w'. unfold try_except.
  destruct (m w) as [[e|a] w1] eqn:E; apply Hm in E as [E1 E2].
  - intros [E3 E4]%Hh. split; [by eapply extends_trans | congruence].
  - by intros [= <- <-].
Qed.

Lemma quiet_path_exists path : quiet (path_exists path).
Proof. intros w r w' [= <- <-]. split; [apply extends_refl | done]. Qed.

Lemma quiet_path_isdir path : quiet (path_isdir path).
Proof. intros w r w' [= <- <-]. split; [apply extends_refl | done]. Qed.

Lemma sys_mkdir_subseteq cwd t path t' :
  sys_mkdir cwd t path = inr t' → t ⊆ t'.
Proof.
  unfold sys_mkdir. destruct (nonempty path); [|done].
  destruct (rev _) as [|name rparent]; [done|].
  destruct (walk _ _ _) as [|[dir []]]; [done| |done].
  destruct (_ || _); [done|].
  destruct (t !! (dir ++ [name])) eqn:E; [done|].
  intros [= <-]. by apply insert_subseteq.
Qed.

Lemma quiet_mkdir path : quiet (mkdir path).
Proof.
  intros w r w'. unfold mkdir.
  destruct (sys_mkdir _ _ _) as [e|t'] eqn:E; intros [= <- <-].
  - split; [apply extends_refl | done].
  - split; [|done]. split; [done|]. by eapply sys_mkdir_subseteq.
Qed.

Lemma quiet_makedirs_fuel fuel name exist_ok :
  quiet (makedirs_fuel fuel name exist_ok).
Proof.
  revert name. induction fuel as [|fuel IH]; intros name;
    unfold makedirs_fuel; fold makedirs_fuel.
  all: destruct (split name) as [head tail].
  all: destruct (if nonempty tail then _ else _) as [head' tail'].
  all: apply quiet_bind;
    [destruct (_ && _); [apply quiet_path_exists | apply quiet_ret]|].
  all: intros present; apply quiet_bind.
  1,3: destruct (negb present); [|apply quiet_ret].
  1: apply quiet_raise.
  1: apply quiet_bind; [|intros; apply quiet_ret].
  1: apply quiet_try_except; [apply IH|].
  1: intros [[]|]; (apply quiet_ret || apply quiet_raise).
  all: intros [|]; [apply quiet_ret|].
  all: apply quiet_try_except; [apply quiet_mkdir|].
  all: intros [e|]; [|apply quiet_raise].
  all: apply quiet_bind; [apply quiet_path_isdir|].
  all: intros isd; destruct (_ || _); (apply quiet_ret || apply quiet_raise).
Qed.

(** * Resolution of well-formed paths *)

Lemma walk_kind t cur cs q k :
  walk t cur cs = inr (q, k) → node_at t q = Some k.
Proof.
  revert cur. induction cs as [|c cs IH]; intros cur; simpl.
  - destruct (node_at t cur) eqn:E; [|done]. by intros [= <- <-].
  - destruct (node_at t cur) as [[]|]; [|done|done]. apply IH.
Qed.

Lemma walk_snoc_good t cur segs c :
  good c →
  walk t cur (segs ++ [c]) =
  match walk t cur segs with
  | inr (q, Dir) =>
      match t !! (q ++ [c]) with
      | Some k => inr (q ++ [c], k)
      | None => inl ENOENT
      end
  | inr (_, File) => inl ENOTDIR
  | inl e => inl e
  end.
Proof.
  intros Hc. rewrite walk_app.
  destruct (walk t cur segs) as [e|[q []]] eqn:E; [done| |done].
  simpl. rewrite (walk_kind _ _ _ _ _ E), step_good, node_at_snoc by done.
  done.
Qed.

(** Resolution succeeds on a chain of directories ... *)
Lemma walk_dirs t start segs :
  Forall good segs →
  node_at t start = Some Dir →
  Forall (λ p, t !! p = Some Dir) (prefixes start segs) →
  walk t start segs = inr (start ++ segs, Dir).
Proof.
  intros H. revert start.
  induction H as [|c segs Hc _ IH]; intros start Hstart Hp; simpl.
  - by rewrite Hstart, app_nil_r.
  - inversion_clear Hp as [|?? Hp1 Hp2].
    rewrite Hstart, step_good by done.
    rewrite IH; [by rewrite <-app_assoc | by rewrite node_at_snoc | done].
Qed.

(** ... and only there. *)
Lemma walk_dirs_inv t start segs q :
  Forall good segs →
  walk t start segs = inr (q, Dir) →
  node_at t start = Some Dir ∧
  Forall (λ p, t !! p = Some Dir) (prefixes start segs).
Proof.
  intros H. revert start.
  induction H as [|c segs Hc _ IH]; intros start; simpl.
  - destruct (node_at t start) as [[]|]; [|done|done]. by split; [|constructor].
  - destruct (node_at t start) as [[]|]; [|done|done].
    rewrite step_good by done. intros [H1 H2]%IH. split; [done|].
    constructor; [by rewrite <-node_at_snoc | done].
Qed.

Lemma walk_present_inv t start segs r :
  Forall good segs →
  walk t start segs = inr r →
  Forall (λ p, is_Some (t !! p)) (prefixes start segs).
Proof.
  intros H. revert start.
  induction H as [|c segs Hc _ IH]; intros start; simpl; [by constructor|].
  destruct (node_at t start) as [[]|]; [|done|done].
  rewrite step_good by done. intros Hw. constructor; [|by eapply IH].
  destruct segs; simpl in Hw.
  - rewrite <-node_at_snoc. by destruct (node_at t (start ++ [c])).
  - rewrite <-node_at_snoc. by destruct (node_at t (start ++ [c])).
Qed.

Lemma mkdir_last_good abs segs c w :
  Forall good (segs ++ [c]) →
  mkdir_last (path_of abs (segs ++ [c])) true w =
  match walk (fs w) (start_of (cwd w) abs) segs with
  | inr (dir, Dir) =>
      match fs w !! (dir ++ [c]) with
      | None => (inr (), set_fs (<[dir ++ [c] := Dir]> (fs w)) w)
      | Some Dir => (inr (), w)
      | Some File => (inl (OSError EEXIST), w)
      end
  | inr (_, File) => (inl (OSError ENOTDIR), w)
  | inl e => (inl (OSError e), w)
  end.
Proof.
  intros H. pose proof H as [Hs Hc]%Forall_app.
  inversion_clear Hc as [|?? Hc' _].
  assert (isdir_in w (path_of abs (segs ++ [c])) =
          match walk (fs w) (start_of (cwd w) abs) (segs ++ [c]) with
          | inr (_, Dir) => true
          | _ => false
          end) as Hisdir.
  { unfold isdir_in. rewrite sys_stat_good by (done || by destruct segs).
    by destruct (walk _ _ _) as [?|[? []]]. }
  rewrite walk_snoc_good in Hisdir by done.
  unfold mkdir_last, try_except, mkdir.
  rewrite sys_mkdir_good by done.
  destruct (walk _ _ segs) as [e|[dir []]];
    unfold mbind, M_bind, path_isdir; rewrite ?Hisdir; [done| |done].
  destruct (fs w !! (dir ++ [c])) as [[]|];
    unfold mbind, M_bind, path_isdir; by rewrite ?Hisdir.
Qed.

Lemma isdir_in_good w abs segs :
  segs ≠ [] → Forall good segs →
  isdir_in w (path_of abs segs) = true ↔
  walk (fs w) (start_of (cwd w) abs) segs = inr (start_of (cwd w) abs ++ segs, Dir).
Proof.
  intros Hn H. unfold isdir_in. rewrite sys_stat_good by done.
  destruct (walk _ _ _) as [e|[q k]] eqn:E; [done|].
  apply walk_good_loc in E as ->; [|done]. destruct k; naive_solver.
Qed.

Lemma exists_in_good w abs segs :
  segs ≠ [] → Forall good segs →
  exists_in w (path_of abs segs) = true ↔
  ∃ k, walk (fs w) (start_of (cwd w) abs) segs = inr (start_of (cwd w) abs ++ segs, k).
Proof.
  intros Hn H. unfold exists_in. rewrite sys_stat_good by done.
  destruct (walk _ _ _) as [e|[q k]] eqn:E.
  - split; [done | by intros [? ?]].
  - apply walk_good_loc in E as ->; [|done]. naive_solver.
Qed.

(** * What [makedirs] does on a well-formed path *)

Lemma set_fs_id w : set_fs (fs w) w = w.
Proof. by destruct w. Qed.

Lemma clear_way_snoc w abs segs c :
  clear_way w abs (segs ++ [c]) ↔
  clear_way w abs segs ∧
  fs w !! (start_of (cwd w) abs ++ segs ++ [c]) ≠ Some File.
Proof.
  unfold clear_way. rewrite prefixes_snoc, Forall_app, Forall_singleton.
  tauto.
Qed.

(** When the parent resolves to a directory there is no recursive call. *)
Lemma makedirs_fuel_parent_dir fuel abs segs c w q :
  Forall good (segs ++ [c]) →
  walk (fs w) (start_of (cwd w) abs) segs = inr (q, Dir) →
  makedirs_fuel fuel (path_of abs (segs ++ [c])) true w =
  mkdir_last (path_of abs (segs ++ [c])) true w.
Proof.
  intros H E. pose proof H as [Hs Hc]%Forall_app.
  assert (bool_decide (segs ≠ []) && negb (exists_in w (path_of abs segs))
          = false) as Hex.
  { apply andb_false_iff. destruct (decide (segs = [])) as [->|Hn].
    - left. apply bool_decide_false. by intros [].
    - right. apply negb_false_iff, exists_in_good; [done..|].
      exists Dir. pose proof E as ->%walk_good_loc; done. }
  by rewrite makedirs_fuel_good, Hex.
Qed.

(** An existing directory: nothing to do, whatever the fuel. *)
Lemma makedirs_fuel_isdir fuel abs segs c w :
  Forall good (segs ++ [c]) →
  isdir_in w (path_of abs (segs ++ [c])) = true →
  makedirs_fuel fuel (path_of abs (segs ++ [c])) true w = (inr (), w).
Proof.
  intros H Hd. pose proof H as [Hs Hc]%Forall_app.
  inversion_clear Hc as [|?? Hc' _].
  apply isdir_in_good in Hd; [|by destruct segs|done].
  rewrite walk_snoc_good in Hd by done.
  destruct (walk _ _ segs) as [e|[q []]] eqn:E; [done| |done].
  destruct (fs w !! (q ++ [c])) as [k|] eqn:Ec; [|done].
  injection Hd as _ ->.
  erewrite makedirs_fuel_parent_dir by done.
  by rewrite mkdir_last_good, E, Ec.
Qed.

(** An existing regular file: [FileExistsError], and nothing is touched. *)
Lemma makedirs_fuel_file fuel abs segs c w :
  Forall good (segs ++ [c]) →
  sys_stat (cwd w) (fs w) (path_of abs (segs ++ [c])) = inr File →
  makedirs_fuel fuel (path_of abs (segs ++ [c])) true w =
  (inl (OSError EEXIST), w).
Proof.
  intros H Hd. pose proof H as [Hs Hc]%Forall_app.
  inversion_clear Hc as [|?? Hc' _].
  rewrite sys_stat_good in Hd by (done || by destruct segs).
  rewrite walk_snoc_good in Hd by done.
  destruct (walk _ _ segs) as [e|[q []]] eqn:E; [done| |done].
  destruct (fs w !! (q ++ [c])) as [k|] eqn:Ec; [|done].
  injection Hd as ->.
  erewrite makedirs_fuel_parent_dir by done.
  by rewrite mkdir_last_good, E, Ec.
Qed.

Lemma mkdir_last_clear abs segs c w t :
  Forall good (segs ++ [c]) →
  node_at t (start_of (cwd w) abs) = Some Dir →
  Forall (λ p, t !! p ≠ Some File)
    (prefixes (start_of (cwd w) abs) (segs ++ [c])) →
  mkdir_last (path_of abs (segs ++ [c])) true
    (set_fs (t ∪ added (prefixes (start_of (cwd w) abs) segs)) w) =
  (inr (),
   set_fs (t ∪ added (prefixes (start_of (cwd w) abs) (segs ++ [c]))) w).
Proof.
  intros H Hstart Hfree. pose proof H as [Hs Hc]%Forall_app.
  set (start := start_of (cwd w) abs) in *.
  rewrite prefixes_snoc in *. apply Forall_app in Hfree as [Hfree Hp].
  rewrite Forall_singleton in Hp.
  set (ps := prefixes start segs) in *.
  rewrite mkdir_last_good by done. simpl cwd. simpl fs. fold start.
  rewrite (walk_dirs _ start segs); [|done|..].
  - rewrite <-app_assoc.
    destruct ((t ∪ added ps) !! (start ++ segs ++ [c])) as [[]|] eqn:E.
    + rewrite <-union_added_snoc_present; [done|]. by rewrite E.
    + by apply union_added_file in E.
    + unfold set_fs. simpl. by rewrite insert_union_added.
  - eapply node_at_mono; [apply union_added_subseteq | done].
  - apply Forall_forall. intros p Hin. rewrite lookup_union_added.
    rewrite Forall_forall in Hfree. specialize (Hfree p Hin).
    destruct (t !! p) as [[]|]; [done|done|]. by rewrite decide_True.
Qed.

(** With a clear way, every missing directory on the way is created. *)
Lemma makedirs_fuel_clear segs : ∀ c fuel abs w,
  Forall good (segs ++ [c]) →
  (List.length segs ≤ fuel)%nat →
  clear_way w abs (segs ++ [c]) →
  makedirs_fuel fuel (path_of abs (segs ++ [c])) true w =
  (inr (),
   set_fs (fs w ∪ added (prefixes (start_of (cwd w) abs) (segs ++ [c]))) w).
Proof.
  induction segs as [|c' segs' IH] using rev_ind; intros c fuel abs w H Hfuel Hway.
  - rewrite makedirs_fuel_good by done. simpl andb. cbv iota.
    rewrite <-(mkdir_last_clear abs [] c w (fs w)) by (done || apply Hway).
    simpl prefixes. f_equal.
    rewrite union_added_present by constructor. by rewrite set_fs_id.
  - rewrite makedirs_fuel_good by done.
    pose proof H as [Hs Hc]%Forall_app.
    pose proof Hway as [Hway' Hp]%clear_way_snoc.
    rewrite <-(mkdir_last_clear abs (segs' ++ [c']) c w (fs w))
      by (done || apply Hway).
    destruct (bool_decide _ && negb _) eqn:Hex.
    + rewrite length_app in Hfuel. simpl in Hfuel.
      destruct fuel as [|fuel]; [lia|].
      rewrite IH by (done || lia). done.
    + f_equal. apply andb_false_iff in Hex as [Hex|Hex].
      { apply bool_decide_eq_false in Hex. destruct Hex. by destruct segs'. }
      apply negb_false_iff, exists_in_good in Hex as [k Hex];
        [|by destruct segs'|done].
      apply walk_present_inv in Hex; [|done].
      rewrite union_added_present by done. by rewrite set_fs_id.
Qed.

Lemma mkdir_last_raise name exist_ok w e w' :
  mkdir_last name exist_ok w = (inl e, w') →
  w' = w ∧ (exist_ok = true → isdir_in w name = false).
Proof.
  unfold mkdir_last, try_except, mkdir.
  destruct (sys_mkdir _ _ _) as [x|t']; [|done].
  unfold mbind, M_bind, path_isdir.
  destruct exist_ok; simpl.
  - destruct (isdir_in w name); simpl; [done|]. by intros [= _ <-].
  - by intros [= _ <-].
Qed.

Lemma isdir_in_parent w abs segs c :
  segs ≠ [] → Forall good (segs ++ [c]) →
  isdir_in w (path_of abs (segs ++ [c])) = true →
  isdir_in w (path_of abs segs) = true.
Proof.
  intros Hn H. pose proof H as [Hs Hc]%Forall_app.
  inversion_clear Hc as [|?? Hc' _].
  rewrite !isdir_in_good by (done || by destruct segs).
  rewrite walk_snoc_good by done.
  destruct (walk _ _ segs) as [e|[q []]] eqn:E; [done| |done].
  by pose proof E as ->%walk_good_loc.
Qed.

(** When [makedirs] raises, its target is not a directory. *)
Lemma makedirs_fuel_raise segs : ∀ c fuel abs w e w',
  Forall good (segs ++ [c]) →
  makedirs_fuel fuel (path_of abs (segs ++ [c])) true w = (inl (OSError e), w') →
  isdir_in w' (path_of abs (segs ++ [c])) = false.
Proof.
  induction segs as [|c' segs' IH] using rev_ind; intros c fuel abs w e w' H.
  - rewrite makedirs_fuel_good by done. simpl andb. cbv iota.
    intros [-> Hd]%mkdir_last_raise. by apply Hd.
  - rewrite makedirs_fuel_good by done.
    pose proof H as [Hs Hc]%Forall_app.
    destruct (bool_decide _ && negb _).
    + destruct fuel as [|fuel]; [done|].
      destruct (makedirs_fuel _ _ _ _) as [[[[]|]|[]] w1] eqn:E.
      * intros [-> Hd]%mkdir_last_raise. by apply Hd.
      * intros [= <- <-]. apply IH in E; [|done].
        apply not_true_is_false. intros Hd.
        apply isdir_in_parent in Hd; [congruence|by destruct segs'|done].
      * intros [= <- <-]. apply IH in E; [|done].
        apply not_true_is_false. intros Hd.
        apply isdir_in_parent in Hd; [congruence|by destruct segs'|done].
      * done.
      * intros [-> Hd]%mkdir_last_raise. by apply Hd.
    + intros [-> Hd]%mkdir_last_raise. by apply Hd.
Qed.

Lemma mkdir_last_ok abs segs c w w' :
  Forall good (segs ++ [c]) →
  mkdir_last (path_of abs (segs ++ [c])) true w = (inr (), w') →
  walk (fs w) (start_of (cwd w) abs) segs
    = inr (start_of (cwd w) abs ++ segs, Dir) ∧
  fs w !! (start_of (cwd w) abs ++ segs ++ [c]) ≠ Some File.
Proof.
  intros H. pose proof H as [Hs Hc]%Forall_app.
  rewrite mkdir_last_good by done.
  destruct (walk _ _ segs) as [e|[q []]] eqn:E; [done| |done].
  pose proof E as ->%walk_good_loc; [|done]. rewrite <-app_assoc.
  by destruct (fs w !! _) as [[]|].
Qed.

(** [makedirs] succeeds only with a clear way. *)
Lemma makedirs_fuel_ok_clear segs : ∀ c fuel abs w w',
  Forall good (segs ++ [c]) →
  makedirs_fuel fuel (path_of abs (segs ++ [c])) true w = (inr (), w') →
  clear_way w abs (segs ++ [c]).
Proof.
  assert (∀ c abs w w' segs,
    Forall good (segs ++ [c]) →
    mkdir_last (path_of abs (segs ++ [c])) true w = (inr (), w') →
    clear_way w abs (segs ++ [c])) as Hlast.
  { intros c abs w w' segs0 H [Hw Hp]%mkdir_last_ok; [|done].
    apply Forall_app in H as [Hs _].
    apply clear_way_snoc. split; [|done].
    apply walk_dirs_inv in Hw as [H1 H2]; [|done]. split; [done|].
    eapply Forall_impl; [done|]. simpl. by intros ? ->. }
  induction segs as [|c' segs' IH] using rev_ind; intros c fuel abs w w' H.
  - rewrite makedirs_fuel_good by done. simpl andb. cbv iota. by apply Hlast.
  - rewrite makedirs_fuel_good by done.
    pose proof H as [Hs Hc]%Forall_app.
    destruct (bool_decide _ && negb _); [|by apply Hlast].
    destruct fuel as [|fuel]; [done|].
    destruct (makedirs_fuel _ _ _ _) as [[[[]|]|[]] w1] eqn:E; try done.
    + intros [Hw Hp]%mkdir_last_ok; [|done].
      apply makedirs_fuel_raise in E; [|done].
      apply isdir_in_good in Hw; [congruence|by destruct segs'|done].
    + intros [Hw Hp]%mkdir_last_ok; [|done].
      pose proof (quiet_makedirs_fuel _ _ _ _ _ _ E) as [[Hcwd Hsub] _].
      apply clear_way_snoc. split; [by eapply IH|].
      rewrite Hcwd in Hp. intros Hf. apply Hp. by eapply lookup_weaken.
Qed.

(** * The wrapper [makedirs] has fuel enough *)

Lemma length_take_drop n s :
  String.length (take_str n s) + String.length (drop_str n s) = String.length s.
Proof.
  revert s. induction n as [|n IH]; intros [|c s]; simpl; [done..|].
  by rewrite IH.
Qed.

Lemma length_rstrip_sep s : (String.length (rstrip_sep s) ≤ String.length s)%nat.
Proof.
  induction s as [|c s IH]; simpl; [done|].
  destruct (rstrip_sep s); [|simpl in *; lia].
  destruct (is_sep c); simpl; lia.
Qed.

Lemma split_length p head tail :
  split p = (head, tail) →
  (String.length head + String.length tail ≤ String.length p)%nat.
Proof.
  unfold split. intros [= <- <-].
  pose proof (length_take_drop (rfind_succ p) p).
  pose proof (length_rstrip_sep (take_str (rfind_succ p) p)).
  destruct (_ && _); lia.
Qed.

Lemma nonempty_length s : nonempty s = true → (1 ≤ String.length s)%nat.
Proof. destruct s; simpl; [done | lia]. Qed.

Lemma fueled_ret {A} (a : A) : fueled (mret a).
Proof. by intros w r w' [= <- <-]. Qed.

Lemma fueled_raise {A} e : e ≠ OutOfFuel → fueled (raise e : M A).
Proof. intros He w r w' [= <- <-]. congruence. Qed.

Lemma fueled_bind {A B} (m : M A) (f : A → M B) (P : A → Prop) :
  fueled m → (∀ w a w', m w = (inr a, w') → P a) →
  (∀ a, P a → fueled (f a)) → fueled (m ≫= f).
Proof.
  intros Hm HP Hf w r w'. unfold mbind, M_bind.
  destruct (m w) as [[e|a] w1] eqn:E.
  - intros [= <- <-] [= ->]. by apply Hm in E.
  - apply Hf. by eapply HP.
Qed.

Lemma fueled_try_except {A} (m : M A) (h : exn → M A) :
  fueled m → (∀ e, e ≠ OutOfFuel → fueled (h e)) → fueled (try_except m h).
Proof.
  intros Hm Hh w r w'. unfold try_except.
  destruct (m w) as [[e|a] w1] eqn:E.
  - apply Hh. intros ->. by eapply Hm.
  - intros [= <- <-]. by eapply Hm.
Qed.

Lemma fueled_mkdir path : fueled (mkdir path).
Proof.
  intros w r w'. unfold mkdir.
  by destruct (sys_mkdir _ _ _); intros [= <- <-].
Qed.

(** The recursion of [makedirs] is on a shorter path each time, so fuel
    for the length of the path is never used up. *)
Lemma fueled_makedirs_fuel fuel : ∀ name exist_ok,
  (String.length name ≤ fuel)%nat → fueled (makedirs_fuel fuel name exist_ok).
Proof.
  induction fuel as [|fuel IH]; intros name exist_ok Hlen;
    unfold makedirs_fuel; fold makedirs_fuel.
  all: destruct (split name) as [head0 tail0] eqn:E0.
  all: apply split_length in E0.
  all: destruct (if nonempty tail0 then _ else _) as [head tail] eqn:E1.
  all: assert (nonempty tail = true →
         (String.length head < String.length name)%nat) as Hshort
    by (intros Ht%nonempty_length; destruct (nonempty tail0);
        [injection E1 as -> -> | apply split_length in E1]; lia).
  all: apply (fueled_bind _ _
         (λ present, present = false → nonempty tail = true)).
  all: try (destruct (nonempty head), (nonempty tail); simpl;
            first [apply fueled_ret | by intros ???? [= <- <-]]).
  all: try (destruct (nonempty head), (nonempty tail); simpl;
            intros ??? [= <- _]; done).
  all: intros present Hpresent;
    apply (fueled_bind _ _ (λ _, True)); [|done|].
  1,3: destruct present; simpl; [apply fueled_ret|].
  1: { specialize (Hshort (Hpresent eq_refl)). lia. }
  1: { apply (fueled_bind _ _ (λ _, True)); [|done|intros; apply fueled_ret].
       apply fueled_try_except.
       - apply IH. specialize (Hshort (Hpresent eq_refl)). lia.
       - intros [[]|] He; (apply fueled_ret || by apply fueled_raise). }
  all: intros [|] _; [apply fueled_ret|].
  all: apply fueled_try_except; [apply fueled_mkdir|].
  all: intros [e|] He; [|done].
  all: apply (fueled_bind _ _ (λ _, True)); [by intros ??? [= <- <-]|done|].
  all: intros isd _; destruct (_ || _); (apply fueled_ret || by apply fueled_raise).
Qed.

Lemma fueled_makedirs name exist_ok : fueled (makedirs name exist_ok).
Proof. by apply fueled_makedirs_fuel. Qed.

Lemma length_concat_good segs :
  Forall good segs → (List.length segs ≤ String.length (String.concat "/" segs))%nat.
Proof.
  induction segs as [|x [|y ys] IH]; intros H; inversion_clear H as [|?? Hx Hr].
  - done.
  - apply good_nonempty in Hx. destruct x; simpl in *; [done | lia].
  - rewrite concat_cons_cons, !str_length_app.
    specialize (IH Hr). simpl List.length in *. simpl String.length at 2. lia.
Qed.

Lemma length_path_of abs segs c :
  Forall good (segs ++ [c]) →
  (List.length segs ≤ String.length (path_of abs (segs ++ [c])))%nat.
Proof.
  intros H%length_concat_good. unfold path_of.
  rewrite str_length_app. rewrite length_app in H. lia.
Qed.

Lemma makedirs_clear abs segs w :
  segs ≠ [] → Forall good segs → clear_way w abs segs →
  makedirs (path_of abs segs) true w =
  (inr (), set_fs (fs w ∪ added (prefixes (start_of (cwd w) abs) segs)) w).
Proof.
  intros Hn H Hway. destruct segs as [|c segs _] using rev_ind; [done|].
  apply makedirs_fuel_clear; [done | by apply length_path_of | done].
Qed.

Lemma makedirs_ok_clear abs segs w w' :
  segs ≠ [] → Forall good segs →
  makedirs (path_of abs segs) true w = (inr (), w') →
  clear_way w abs segs.
Proof.
  intros Hn H. destruct segs as [|c segs _] using rev_ind; [done|].
  by apply makedirs_fuel_ok_clear.
Qed.

Lemma makedirs_isdir abs segs w :
  segs ≠ [] → Forall good segs →
  isdir_in w (path_of abs segs) = true →
  makedirs (path_of abs segs) true w = (inr (), w).
Proof.
  intros Hn H. destruct segs as [|c segs _] using rev_ind; [done|].
  by apply makedirs_fuel_isdir.
Qed.

Lemma makedirs_file abs segs w :
  segs ≠ [] → Forall good segs →
  sys_stat (cwd w) (fs w) (path_of abs segs) = inr File →
  makedirs (path_of abs segs) true w = (inl (OSError EEXIST), w).
Proof.
  intros Hn H. destruct segs as [|c segs _] using rev_ind; [done|].
  by apply makedirs_fuel_file.
Qed.

Lemma quiet_makedirs name exist_ok : quiet (makedirs name exist_ok).
Proof. apply quiet_makedirs_fuel. Qed.

(** After a successful [makedirs] the target is a directory. *)
Lemma makedirs_ok_isdir abs segs w w' :
  segs ≠ [] → Forall good segs →
  makedirs (path_of abs segs) true w = (inr (), w') →
  isdir_in w' (path_of abs segs) = true.
Proof.
  intros Hn H Hrun. pose proof Hrun as Hway%makedirs_ok_clear; [|done..].
  rewrite makedirs_clear in Hrun by done. injection Hrun as <-.
  apply isdir_in_good; [done..|]. simpl. destruct Hway as [Hstart Hfree].
  apply walk_dirs; [done|..].
  - eapply node_at_mono; [apply union_added_subseteq | done].
  - apply Forall_forall. intros p Hin. rewrite lookup_union_added.
    rewrite Forall_forall in Hfree. specialize (Hfree p Hin).
    destruct (fs w !! p) as [[]|]; [done|done|]. by rewrite decide_True.
Qed.

(** * The loop of the script *)

Lemma create_unfold base e w :
  create base e w =
  match makedirs (join base e) true w with
  | (inr _, w1) => (inr (), say ("Created: " +:+ join base e) w1)
  | (inl x, w1) => (inl x, w1)
  end.
Proof.
  unfold create, mbind, M_bind. by destruct (makedirs _ _ _) as [[?|[]] ?].
Qed.

Lemma for_each_cons {A} (x : A) xs body w :
  for_each (x :: xs) body w =
  match body x w with
  | (inr _, w1) => for_each xs body w1
  | (inl e, w1) => (inl e, w1)
  end.
Proof. done. Qed.

Lemma for_each_app {A} (xs ys : list A) body w :
  for_each (xs ++ ys) body w =
  match for_each xs body w with
  | (inr _, w1) => for_each ys body w1
  | (inl e, w1) => (inl e, w1)
  end.
Proof.
  revert w. induction xs as [|x xs IH]; intros w; [done|].
  simpl app. rewrite !for_each_cons.
  destruct (body x w) as [[e|u] w1]; [done | apply IH].
Qed.

Lemma scaffold_unfold base dirs w :
  scaffold base dirs w =
  match for_each dirs (create base) w with
  | (inr _, w1) =>
      (inr (), say (newline +:+ "Directory structure created successfully!") w1)
  | (inl x, w1) => (inl x, w1)
  end.
Proof.
  unfold scaffold, mbind, M_bind. fold (create base).
  change (λ directory, create base directory) with (create base).
  by destruct (for_each _ _ _) as [[?|?] ?].
Qed.

Lemma concat_empty_cons x xs :
  String.concat "" (x :: xs) = x +:+ String.concat "" xs.
Proof. destruct xs; [by rewrite str_app_nil_r | done]. Qed.

Lemma created_lines_cons base e dirs :
  created_lines base (e :: dirs) =
  ("Created: " +:+ join base e) +:+ newline +:+ created_lines base dirs.
Proof.
  unfold created_lines. simpl map.
  by rewrite concat_empty_cons, !str_app_assoc.
Qed.

Lemma create_extends base e w r w' :
  create base e w = (r, w') → extends w w'.
Proof.
  rewrite create_unfold.
  destruct (makedirs _ _ _) as [[x|u] w1] eqn:E;
    apply quiet_makedirs in E as [E _]; by intros [= <- <-].
Qed.

Lemma for_each_create_extends base dirs w r w' :
  for_each dirs (create base) w = (r, w') → extends w w'.
Proof.
  revert w. induction dirs as [|e dirs IH]; intros w.
  - intros [= <- <-]. apply extends_refl.
  - rewrite for_each_cons. destruct (create base e w) as [[x|u] w1] eqn:E.
    + intros [= <- <-]. by eapply create_extends.
    + intros Hr%IH. eapply extends_trans; [|done]. by eapply create_extends.
Qed.

Lemma fueled_for_each_create base dirs : fueled (for_each dirs (create base)).
Proof.
  induction dirs as [|e dirs IH]; intros w r w'.
  - by intros [= <- <-].
  - rewrite for_each_cons, create_unfold.
    destruct (makedirs _ _ _) as [[x|u] w1] eqn:E.
    + intros [= <- <-]. by apply fueled_makedirs in E.
    + apply IH.
Qed.

(** The console after the loop: one line per entry, whatever the tree. *)
Lemma for_each_create_stdout base dirs w w' :
  for_each dirs (create base) w = (inr (), w') →
  stdout w' = stdout w +:+ created_lines base dirs.
Proof.
  revert w. induction dirs as [|e dirs IH]; intros w.
  - intros [= <-]. by rewrite str_app_nil_r.
  - rewrite for_each_cons, create_unfold.
    destruct (makedirs _ _ _) as [[x|u] w1] eqn:E; [done|].
    apply quiet_makedirs in E as [_ E].
    intros ->%IH. simpl. rewrite E, created_lines_cons.
    by rewrite !str_app_assoc.
Qed.

Lemma sys_stat_extends w w' path k :
  extends w w' →
  sys_stat (cwd w) (fs w) path = inr k →
  sys_stat (cwd w') (fs w') path = inr k.
Proof.
  intros [-> Hsub]. unfold sys_stat. destruct (nonempty path); [|done].
  destruct (walk (fs w) _ _) as [e|[q k']] eqn:E; [done|].
  intros [= ->]. by rewrite (walk_mono _ _ _ _ _ Hsub E).
Qed.

Lemma isdir_in_extends w w' path :
  extends w w' → isdir_in w path = true → isdir_in w' path = true.
Proof.
  intros Hext. unfold isdir_in.
  destruct (sys_stat (cwd w) _ _) as [e|[]] eqn:E; [done| |done].
  by rewrite (sys_stat_extends _ _ _ _ Hext E).
Qed.

(** * Well-formed inputs of the script *)

Lemma inputs_good base :
  base_ok base = true →
  ∃ abs bsegs,
    base = path_of abs bsegs ∧ Forall good bsegs ∧
    (abs = true ∨ bsegs ≠ []) ∧
    ∀ e, relative_ok e = true →
      segments e ≠ [] ∧ Forall good (bsegs ++ segments e) ∧
      join base e = path_of abs (bsegs ++ segments e).
Proof.
  intros (abs & bsegs & Hb & Habs & ->)%base_ok_inv.
  exists abs, bsegs. split_and!; [done..|].
  intros e He. pose proof (forallb_name_ok_segments _ He) as Hg.
  pose proof (segments_nonnil e) as Hn. split_and!; [done| |].
  - by apply Forall_app.
  - rewrite <-join_good by done. f_equal. unfold path_of. simpl lead_of.
    by rewrite str_app_nil_l, concat_segments.
Qed.

Lemma forallb_relative_ok dirs :
  forallb relative_ok dirs = true ↔ Forall (λ e, relative_ok e = true) dirs.
Proof.
  rewrite forallb_forall, Forall_forall. by setoid_rewrite list_elem_of_In.
Qed.

Lemma app_nonnil_r {A} (xs ys : list A) : ys ≠ [] → xs ++ ys ≠ [].
Proof. by destruct xs, ys. Qed.

(** Every entry is a directory after a successful loop. *)
Lemma for_each_create_isdir base dirs w w' :
  base_ok base = true →
  forallb relative_ok dirs = true →
  for_each dirs (create base) w = (inr (), w') →
  Forall (λ e, isdir_in w' (join base e) = true) dirs.
Proof.
  intros (abs & bsegs & -> & Hb & Habs & Hin)%inputs_good Hdirs%forallb_relative_ok.
  revert w. induction Hdirs as [|e dirs He _ IH]; intros w; [by constructor|].
  rewrite for_each_cons, create_unfold.
  destruct (Hin e He) as (Hn & Hg & Hj).
  destruct (makedirs _ _ _) as [[x|u] w1] eqn:E; [done|].
  intros Hrest. constructor; [|by eapply IH].
  apply for_each_create_extends in Hrest.
  eapply isdir_in_extends; [done|].
  rewrite Hj in *. destruct u.
  apply makedirs_ok_isdir in E; [done|by apply app_nonnil_r|done].
Qed.

(** When every entry is a directory already, the loop only prints. *)
Lemma for_each_create_noop base dirs w :
  base_ok base = true →
  forallb relative_ok dirs = true →
  Forall (λ e, isdir_in w (join base e) = true) dirs →
  for_each dirs (create base) w =
  (inr (), World (cwd w) (fs w) (stdout w +:+ created_lines base dirs)).
Proof.
  intros (abs & bsegs & -> & Hb & Habs & Hin)%inputs_good Hdirs%forallb_relative_ok.
  revert w. induction Hdirs as [|e dirs He _ IH]; intros w Hd.
  - simpl. rewrite str_app_nil_r. by destruct w.
  - inversion_clear Hd as [|?? Hd1 Hd2].
    rewrite for_each_cons, create_unfold.
    destruct (Hin e He) as (Hn & Hg & Hj).
    rewrite Hj in *.
    rewrite makedirs_isdir by (done || by apply app_nonnil_r).
    rewrite IH by done. simpl. rewrite created_lines_cons, Hj.
    by rewrite !str_app_assoc.
Qed.

(** * Runs with a clear way *)

Lemma clear_way_added w abs segs ps out :
  clear_way w abs segs →
  clear_way (World (cwd w) (fs w ∪ added ps) out) abs segs.
Proof.
  intros [Hstart Hfree]. split; simpl.
  - eapply node_at_mono; [apply union_added_subseteq | done].
  - eapply Forall_impl; [done|]. simpl. intros p Hp. by rewrite union_added_file.
Qed.

Lemma clear_way_back w w' abs segs :
  extends w w' →
  node_at (fs w) (start_of (cwd w) abs) = Some Dir →
  clear_way w' abs segs → clear_way w abs segs.
Proof.
  intros [Hcwd Hsub] Hstart [_ Hfree]. split; [done|]. rewrite Hcwd in Hfree.
  eapply Forall_impl; [done|]. simpl. intros p Hp Hf. apply Hp.
  by eapply lookup_weaken.
Qed.

Section well_formed_base.
Variables (abs : bool) (bsegs : list string).
Hypothesis Hb : Forall good bsegs.
Hypothesis Habs : abs = true ∨ bsegs ≠ [].

Lemma join_path_of e :
  relative_ok e = true →
  segments e ≠ [] ∧ Forall good (bsegs ++ segments e) ∧
  join (path_of abs bsegs) e = path_of abs (bsegs ++ segments e).
Proof.
  intros He. pose proof (forallb_name_ok_segments _ He) as Hg.
  pose proof (segments_nonnil e) as Hn. split_and!; [done| |].
  - by apply Forall_app.
  - rewrite <-join_good by done. f_equal. unfold path_of. simpl lead_of.
    by rewrite str_app_nil_l, concat_segments.
Qed.

(** With a clear way for every entry, the loop succeeds, and adds exactly
    the locations on the ways. *)
Lemma for_each_create_clear dirs w :
  Forall (λ e, relative_ok e = true) dirs →
  Forall (λ e, clear_way w abs (bsegs ++ segments e)) dirs →
  for_each dirs (create (path_of abs bsegs)) w =
  (inr (),
   World (cwd w)
     (fs w ∪ added (all_locs (start_of (cwd w) abs) bsegs dirs))
     (stdout w +:+ created_lines (path_of abs bsegs) dirs)).
Proof.
  intros Hdirs. revert w.
  induction Hdirs as [|e dirs He _ IH]; intros w Hway.
  - simpl. rewrite str_app_nil_r, union_added_present by constructor.
    by destruct w.
  - inversion_clear Hway as [|?? Hway1 Hway2].
    destruct (join_path_of e He) as (Hn & Hg & Hj).
    rewrite for_each_cons, create_unfold, Hj.
    rewrite makedirs_clear; [|by apply app_nonnil_r|done..].
    rewrite IH.
    + simpl. unfold all_locs at 2. simpl.
      fold (all_locs (start_of (cwd w) abs) bsegs dirs).
      rewrite union_added_app, created_lines_cons, Hj.
      by rewrite !str_app_assoc.
    + eapply Forall_impl; [done|]. simpl. intros e' He'.
      by apply (clear_way_added w).
Qed.

(** Conversely, the loop succeeds only with a clear way for every
    entry. *)
Lemma for_each_create_ok_clear dirs w w' :
  Forall (λ e, relative_ok e = true) dirs →
  for_each dirs (create (path_of abs bsegs)) w = (inr (), w') →
  Forall (λ e, clear_way w abs (bsegs ++ segments e)) dirs.
Proof.
  intros Hdirs. revert w.
  induction Hdirs as [|e dirs He _ IH]; intros w; [by constructor|].
  destruct (join_path_of e He) as (Hn & Hg & Hj).
  rewrite for_each_cons, create_unfold, Hj.
  destruct (makedirs _ _ _) as [[x|[]] w1] eqn:E; [done|].
  pose proof E as [Hext _]%quiet_makedirs.
  apply makedirs_ok_clear in E; [|by apply app_nonnil_r|done].
  intros Hrest%IH. constructor; [done|].
  eapply Forall_impl; [done|]. simpl. intros e' He'.
  eapply clear_way_back; [|apply E|done]. done.
Qed.
End well_formed_base.

Lemma all_locs_perm start bsegs dirs dirs' :
  dirs ≡ₚ dirs' →
  added (all_locs start bsegs dirs) = added (all_locs start bsegs dirs').
Proof.
  intros Hp. apply added_ext. intros p. unfold all_locs.
  rewrite !list_elem_of_bind. by setoid_rewrite Hp.
Qed.

(** * The lines of the console *)

Lemma no_newline_app a b : no_newline (a +:+ b) = no_newline a && no_newline b.
Proof.
  induction a as [|c a IH]; str_simpl; [done|]. by rewrite IH, andb_assoc.
Qed.

Lemma lines_line l rest :
  no_newline l = true → lines (l +:+ newline +:+ rest) = l :: lines rest.
Proof.
  change (newline +:+ rest) with (String (ascii_of_nat 10) rest).
  induction l as [|c l IH]; str_simpl; [done|].
  intros [Hc Hl]%andb_prop. rewrite (IH Hl).
  by destruct (Ascii.eqb c _).
Qed.

Lemma no_newline_join a b :
  no_newline a = true → no_newline b = true → no_newline (join a b) = true.
Proof.
  intros Ha Hb. unfold join.
  destruct (_ || _); [done|]. destruct (endswith_sep a).
  - by rewrite no_newline_app, Ha, Hb.
  - by rewrite !no_newline_app, Ha, Hb.
Qed.

Lemma lines_created base dirs rest :
  no_newline base = true →
  forallb no_newline dirs = true →
  lines (created_lines base dirs +:+ rest) =
  map (λ e, "Created: " +:+ join base e) dirs ++ lines rest.
Proof.
  intros Hb. induction dirs as [|e dirs IH]; simpl forallb; [done|].
  intros [He Hd]%andb_prop.
  rewrite created_lines_cons.
  rewrite (str_app_assoc ("Created: " +:+ join base e)).
  rewrite (str_app_assoc newline), lines_line.
  - simpl. by rewrite IH.
  - rewrite no_newline_app. simpl. by apply no_newline_join.
Qed.

(** * The claims *)

Lemma run_ok_eta {A} (r : (exn + A) * world) (a : A) :
  r.1 = inr a → r = (inr a, r.2).
Proof. destruct r as [? ?]. simpl. by intros ->. Qed.

Lemma isdir_in_exists_in w path : isdir_in w path = true → exists_in w path = true.
Proof. unfold isdir_in, exists_in. by destruct (sys_stat _ _ _). Qed.

Lemma scaffold_ok_inv base dirs w w' :
  scaffold base dirs w = (inr (), w') →
  ∃ w1, for_each dirs (create base) w = (inr (), w1) ∧
        w' = say (newline +:+ "Directory structure created successfully!") w1.
Proof.
  rewrite scaffold_unfold.
  destruct (for_each _ _ _) as [[x|[]] w1]; [done|]. intros [= <-]. eauto.
Qed.

Lemma scaffold_stdout base dirs w w' :
  scaffold base dirs w = (inr (), w') →
  stdout w' = stdout w +:+ created_lines base dirs +:+ summary.
Proof.
  intros (w1 & Hloop%for_each_create_stdout & ->)%scaffold_ok_inv.
  simpl. rewrite Hloop. unfold summary. by rewrite !str_app_assoc.
Qed.

(** The scenario of the specification: base [/tmp/proj/lib], two entries,
    run where only [/tmp] exists. *)
Example scenario_two_entries :
  (scaffold sample_base sample_dirs home).1 = inr () ∧
  lines (stdout (scaffold sample_base sample_dirs home).2) =
    [ "Created: /tmp/proj/lib/core/error";
      "Created: /tmp/proj/lib/features/user/domain/entities";
      "";
      "Directory structure created successfully!" ] ∧
  isdir_in (scaffold sample_base sample_dirs home).2
    "/tmp/proj/lib/core/error" = true ∧
  isdir_in (scaffold sample_base sample_dirs home).2
    "/tmp/proj/lib/features/user/domain/entities" = true.
Proof. vm_compute. by split_and!. Qed.

(** The inputs of the script itself are well formed. *)
Example main_inputs_ok :
  base_ok base_dir = true ∧ forallb relative_ok directories = true ∧
  no_newline base_dir = true ∧ forallb no_newline directories = true.
Proof. by split_and!. Qed.

(** C1: after a successful run, for every entry of the list of relative
    paths, the path [join base entry] exists and is a directory. *)
Theorem C1_entries_are_directories base dirs w w' :
  base_ok base = true →
  forallb relative_ok dirs = true →
  scaffold base dirs w = (inr (), w') →
  Forall (λ e, exists_in w' (join base e) = true ∧
               isdir_in w' (join base e) = true) dirs.
Proof.
  intros Hb Hd (w1 & Hloop & ->)%scaffold_ok_inv.
  eapply for_each_create_isdir in Hloop; [|done..].
  eapply Forall_impl; [done|]. simpl. intros e He.
  split; [by apply isdir_in_exists_in | done].
Qed.

Lemma C1_witness :
  Forall (λ e, exists_in (main home).2 (join base_dir e) = true ∧
               isdir_in (main home).2 (join base_dir e) = true) directories.
Proof.
  apply (C1_entries_are_directories base_dir directories home).
  - reflexivity.
  - reflexivity.
  - apply run_ok_eta. vm_compute. reflexivity.
Defined.

(** C2: on a successful run the console receives exactly one line
    [Created: <fullPath>] per entry, in list order, then a blank line and
    the line [Directory structure created successfully!]. *)
Theorem C2_console_output base dirs w w' :
  scaffold base dirs w = (inr (), w') →
  stdout w' =
  stdout w
  +:+ String.concat ""
        (map (λ e, "Created: " +:+ join base e +:+ newline) dirs)
  +:+ newline
  +:+ "Directory structure created successfully!" +:+ newline.
Proof. apply scaffold_stdout. Qed.

Lemma C2_witness :
  stdout (main home).2 =
  stdout home
  +:+ String.concat ""
        (map (λ e, "Created: " +:+ join base_dir e +:+ newline) directories)
  +:+ newline
  +:+ "Directory structure created successfully!" +:+ newline.
Proof.
  apply (C2_console_output base_dir directories home).
  apply run_ok_eta. vm_compute. reflexivity.
Defined.

(** C3, as stated, fails: the summary [print] starts with a line break, so
    a successful run over two entries writes four lines, not three. *)
Lemma C3_counterexample :
  (scaffold sample_base sample_dirs home).1 = inr () ∧
  List.length (lines (stdout (scaffold sample_base sample_dirs home).2)) = 4 ∧
  List.length (lines (stdout (scaffold sample_base sample_dirs home).2))
    ≠ List.length sample_dirs + 1.
Proof. vm_compute. by split_and!. Qed.

(** C3, amended: for a base directory and entries without line breaks, a
    successful run that starts with an empty console writes
    [len(dirs) + 2] lines: one per directory, a blank line and the summary
    line. *)
Theorem C3_line_count base dirs w w' :
  no_newline base = true →
  forallb no_newline dirs = true →
  stdout w = "" →
  scaffold base dirs w = (inr (), w') →
  List.length (lines (stdout w')) = List.length dirs + 2.
Proof.
  intros Hb Hd Hout ->%scaffold_stdout. rewrite Hout, str_app_nil_l.
  rewrite lines_created by done.
  rewrite length_app, length_map. done.
Qed.

Lemma C3_witness :
  List.length (lines (stdout (main home).2)) = List.length directories + 2.
Proof.
  apply (C3_line_count base_dir directories home).
  - reflexivity.
  - reflexivity.
  - reflexivity.
  - apply run_ok_eta. vm_compute. reflexivity.
Defined.

(** C4: a second run after a successful one raises nothing and leaves the
    file system as it is; in general [makedirs] on a path that is a
    directory already succeeds without touching anything. *)
Theorem C4_idempotent base dirs w w1 :
  base_ok base = true →
  forallb relative_ok dirs = true →
  scaffold base dirs w = (inr (), w1) →
  (∃ w2, scaffold base dirs w1 = (inr (), w2) ∧
         fs w2 = fs w1 ∧ cwd w2 = cwd w1) ∧
  (∀ e v, relative_ok e = true → isdir_in v (join base e) = true →
          makedirs (join base e) true v = (inr (), v)).
Proof.
  intros Hb Hd (w0 & Hloop & ->)%scaffold_ok_inv. split.
  - eapply for_each_create_isdir in Hloop; [|done..].
    eexists. rewrite scaffold_unfold, for_each_create_noop by done.
    by split_and!.
  - apply inputs_good in Hb as (abs & bsegs & -> & Hbs & Habs & Hin).
    intros e v (Hn & Hg & ->)%Hin Hdir.
    apply makedirs_isdir; [by apply app_nonnil_r | done..].
Qed.

Lemma C4_witness :
  (∃ w2, main (main home).2 = (inr (), w2) ∧
         fs w2 = fs (main home).2 ∧ cwd w2 = cwd (main home).2) ∧
  makedirs (join base_dir "core/error") true home_done = (inr (), home_done).
Proof.
  destruct (C4_idempotent base_dir directories home (main home).2)
    as [H1 H2].
  - reflexivity.
  - reflexivity.
  - apply run_ok_eta. vm_compute. reflexivity.
  - split; [exact H1|]. apply H2; [reflexivity | vm_compute; reflexivity].
Defined.

(** C5: when the full path of an entry is a regular file, the run raises;
    when the entries before it were processed, it raises at that entry
    ([FileExistsError]), leaving the world as those entries made it: their
    directories stay, nothing is printed or created for later entries. *)
Theorem C5_fail_fast base pre e post w :
  base_ok base = true →
  relative_ok e = true →
  isfile_in w (join base e) = true →
  (∃ x w', scaffold base (pre ++ e :: post) w = (inl (OSError x), w')) ∧
  (∀ w1, for_each pre (create base) w = (inr (), w1) →
         scaffold base (pre ++ e :: post) w = (inl (OSError EEXIST), w1)).
Proof.
  intros Hb He Hfile.
  assert (∀ w1, for_each pre (create base) w = (inr (), w1) →
    scaffold base (pre ++ e :: post) w = (inl (OSError EEXIST), w1)) as Hat.
  { intros w1 Hpre. rewrite scaffold_unfold, for_each_app, Hpre.
    rewrite for_each_cons, create_unfold.
    apply for_each_create_extends in Hpre.
    apply inputs_good in Hb as (abs & bsegs & -> & Hbs & Habs & Hin).
    destruct (Hin e He) as (Hn & Hg & Hj). rewrite Hj in *.
    rewrite makedirs_file; [done|by apply app_nonnil_r|done|].
    unfold isfile_in in Hfile.
    destruct (sys_stat (cwd w) _ _) as [?|[]] eqn:E; [done|done|].
    by eapply sys_stat_extends. }
  split; [|done].
  destruct (for_each pre (create base) w) as [[x|[]] w1] eqn:Hpre; [|by eauto].
  pose proof (fueled_for_each_create _ _ _ _ _ Hpre) as Hx.
  destruct x as [x|]; [|done].
  exists x, w1. by rewrite scaffold_unfold, for_each_app, Hpre.
Qed.

Lemma C5_witness :
  scaffold sample_base (["core/error"] ++ "features" :: ["features/user"])
    home_conflict =
  (inl (OSError EEXIST),
   (for_each ["core/error"] (create sample_base) home_conflict).2).
Proof.
  apply (C5_fail_fast sample_base ["core/error"] "features" ["features/user"]
           home_conflict).
  - reflexivity.
  - reflexivity.
  - vm_compute. reflexivity.
  - apply run_ok_eta. vm_compute. reflexivity.
Defined.

(** C6, as stated, fails: a run stops at the first entry that raises, so
    where [features] is a regular file the list [core/error],
    [features/user/domain/entities] leaves [core/error] behind and its
    reverse leaves nothing. *)
Lemma C6_counterexample :
  sample_dirs ≡ₚ reverse sample_dirs ∧
  fs (scaffold sample_base sample_dirs home_conflict).2
    !! ["tmp"; "proj"; "lib"; "core"; "error"] = Some Dir ∧
  fs (scaffold sample_base (reverse sample_dirs) home_conflict).2
    !! ["tmp"; "proj"; "lib"; "core"; "error"] = None ∧
  fs (scaffold sample_base sample_dirs home_conflict).2
    ≠ fs (scaffold sample_base (reverse sample_dirs) home_conflict).2.
Proof.
  assert (fs (scaffold sample_base sample_dirs home_conflict).2
            !! ["tmp"; "proj"; "lib"; "core"; "error"] = Some Dir) as H1
    by (vm_compute; reflexivity).
  assert (fs (scaffold sample_base (reverse sample_dirs) home_conflict).2
            !! ["tmp"; "proj"; "lib"; "core"; "error"] = None) as H2
    by (vm_compute; reflexivity).
  split_and!; [apply perm_swap | done | done |].
  intros Heq. rewrite Heq in H1. congruence.
Qed.

(** C6, amended: when the run on the list succeeds, the run on any
    permutation of it succeeds too and ends in the same file system. *)
Theorem C6_order_independent base dirs dirs' w w1 :
  base_ok base = true →
  forallb relative_ok dirs = true →
  dirs ≡ₚ dirs' →
  scaffold base dirs w = (inr (), w1) →
  ∃ w2, scaffold base dirs' w = (inr (), w2) ∧ fs w2 = fs w1.
Proof.
  intros (abs & bsegs & -> & Hbs & Habs & Hin)%inputs_good
    Hd%forallb_relative_ok Hperm (w0 & Hloop & ->)%scaffold_ok_inv.
  pose proof Hloop as Hway%for_each_create_ok_clear; [|done..].
  rewrite for_each_create_clear in Hloop by done. injection Hloop as <-.
  eexists. rewrite scaffold_unfold, for_each_create_clear; [|done..| |].
  - split; [done|]. simpl. f_equal. symmetry. by apply all_locs_perm.
  - by rewrite <-Hperm.
  - by rewrite <-Hperm.
Qed.

Lemma C6_witness :
  ∃ w2, scaffold base_dir (rev directories) home = (inr (), w2) ∧
        fs w2 = fs (main home).2.
Proof.
  apply (C6_order_independent base_dir directories (rev directories) home).
  - reflexivity.
  - reflexivity.
  - apply Permutation_rev.
  - apply run_ok_eta. vm_compute. reflexivity.
Defined.

(** C7: the static list is the tree of the specification: the two core
    folders, then nine folders for each of the features user, post and
    product, with [cubit] instead of [bloc] for post. *)
Theorem C7_static_tree : directories = spec_tree.
Proof. reflexivity. Qed.

(** C8, as stated, fails: with an empty list the console does not hold the
    summary line alone, a blank line comes first. *)
Lemma C8_counterexample :
  (scaffold base_dir [] home).1 = inr () ∧
  lines (stdout (scaffold base_dir [] home).2)
    = [""; "Directory structure created successfully!"] ∧
  stdout (scaffold base_dir [] home).2
    ≠ "Directory structure created successfully!" +:+ newline.
Proof. vm_compute. by split_and!. Qed.

(** C8, amended: with an empty list a run creates no directory (the file
    system is left as it is, so an absent base directory stays absent) and
    the console receives a blank line followed by the summary line. *)
Theorem C8_empty_list base w :
  scaffold base [] w =
  (inr (),
   World (cwd w) (fs w)
     (stdout w +:+ newline
      +:+ "Directory structure created successfully!" +:+ newline)) ∧
  exists_in (scaffold base [] w).2 base = exists_in w base.
Proof.
  split; [|done]. rewrite scaffold_unfold. simpl. unfold say. simpl.
  by rewrite !str_app_assoc.
Qed.

(** C9: the lines written do not depend on which directories exist
    beforehand: two successful runs from worlds with the same console
    write the same text, a [Created:] line for every entry included. *)
Theorem C9_output_independent base dirs w1 w2 w1' w2' :
  stdout w1 = stdout w2 →
  scaffold base dirs w1 = (inr (), w1') →
  scaffold base dirs w2 = (inr (), w2') →
  stdout w1' = stdout w2' ∧
  stdout w1' = stdout w1 +:+ created_lines base dirs +:+ summary.
Proof.
  intros Hout H1%scaffold_stdout H2%scaffold_stdout. split; congruence.
Qed.

Lemma C9_witness :
  stdout (main home).2 = stdout (main home_done).2 ∧
  stdout (main home).2
    = stdout home +:+ created_lines base_dir directories +:+ summary.
Proof.
  apply (C9_output_independent base_dir directories home home_done).
  - reflexivity.
  - apply run_ok_eta. vm_compute. reflexivity.
  - apply run_ok_eta. vm_compute. reflexivity.
Defined.

(** C10: when the list is not empty and the base directory does not exist,
    a successful run creates the base directory. *)
Theorem C10_base_created base dirs w w' :
  base_ok base = true →
  forallb relative_ok dirs = true →
  dirs ≠ [] →
  exists_in w base = false →
  scaffold base dirs w = (inr (), w') →
  isdir_in w' base = true.
Proof.
  intros Hb Hd Hne _ (w1 & Hloop & ->)%scaffold_ok_inv.
  eapply for_each_create_isdir in Hloop; [|done..].
  destruct dirs as [|e dirs]; [done|].
  apply andb_prop in Hd as [He _]. inversion_clear Hloop as [|?? Hdir _].
  apply inputs_good in Hb as (abs & bsegs & -> & Hbs & Habs & Hin).
  destruct (Hin e He) as (Hn & Hg & Hj). rewrite Hj in Hdir.
  destruct (decide (bsegs = [])) as [->|Hbn].
  { by destruct Habs as [->|]. }
  apply isdir_in_good in Hdir; [|by apply app_nonnil_r|done].
  apply isdir_in_good; [done..|]. simpl in *.
  destruct (segments e) as [|y ys]; [done|].
  rewrite walk_app in Hdir.
  destruct (walk _ _ bsegs) as [x|[q []]] eqn:E; [done| |done].
  by pose proof E as ->%walk_good_loc.
Qed.

Lemma C10_witness : isdir_in (main home).2 base_dir = true.
Proof.
  apply (C10_base_created base_dir directories home).
  - reflexivity.
  - reflexivity.
  - discriminate.
  - vm_compute. reflexivity.
  - apply run_ok_eta. vm_compute. reflexivity.
Defined.

(** * Further properties of a run *)

Section respects_relation.
Variable R : world → world → Prop.
Hypothesis R_refl : ∀ w, R w w.
Hypothesis R_trans : ∀ w1 w2 w3, R w1 w2 → R w2 w3 → R w1 w3.
Hypothesis R_mkdir : ∀ path, respects R (mkdir path).
Hypothesis R_say : ∀ s w, R w (say s w).

Lemma respects_ret {A} (a : A) : respects R (mret a).
Proof. intros w r w' [= <- <-]. apply R_refl. Qed.

Lemma respects_raise {A} e : respects R (raise e : M A).
Proof. intros w r w' [= <- <-]. apply R_refl. Qed.

Lemma respects_bind {A B} (m : M A) (f : A → M B) :
  respects R m → (∀ a, respects R (f a)) → respects R (m ≫= f).
Proof.
  intros Hm Hf w r w'. unfold mbind, M_bind.
  destruct (m w) as [[e|a] w1] eqn:E; apply Hm in E.
  - by intros [= <- <-].
  - intros E'%Hf. by eapply R_trans.
Qed.

Lemma respects_try_except {A} (m : M A) (h : exn → M A) :
  respects R m → (∀ e, respects R (h e)) → respects R (try_except m h).
Proof.
  intros Hm Hh w r w'. unfold try_except.
  destruct (m w) as [[e|a] w1] eqn:E; apply Hm in E.
  - intros E'%Hh. by eapply R_trans.
  - by intros [= <- <-].
Qed.

Lemma respects_makedirs_fuel fuel name exist_ok :
  respects R (makedirs_fuel fuel name exist_ok).
Proof.
  revert name. induction fuel as [|fuel IH]; intros name;
    unfold makedirs_fuel; fold makedirs_fuel.
  all: destruct (split name) as [head0 tail0].
  all: destruct (if nonempty tail0 then _ else _) as [head1 tail1].
  all: apply respects_bind;
    [destruct (_ && _); [by intros w r w' [= <- <-] | apply respects_ret]|].
  all: intros present; apply respects_bind.
  1,3: destruct (negb present); [|apply respects_ret].
  1: apply respects_raise.
  1: apply respects_bind; [|intros; apply respects_ret].
  1: apply respects_try_except; [apply IH|].
  1: intros [[]|]; (apply respects_ret || apply respects_raise).
  all: intros [|]; [apply respects_ret|].
  all: apply respects_try_except; [apply R_mkdir|].
  all: intros [e|]; [|apply respects_raise].
  all: apply respects_bind; [by intros w r w' [= <- <-]|].
  all: intros isd; destruct (_ || _); (apply respects_ret || apply respects_raise).
Qed.

Lemma respects_for_each_create base dirs :
  respects R (for_each dirs (create base)).
Proof.
  induction dirs as [|e dirs IH]; intros w r w'.
  - intros [= <- <-]. apply R_refl.
  - rewrite for_each_cons, create_unfold.
    destruct (makedirs _ _ _) as [[x|u] w1] eqn:E;
      apply respects_makedirs_fuel in E.
    + by intros [= <- <-].
    + intros E'%IH. eapply R_trans; [done|]. eapply R_trans; [|done].
      apply R_say.
Qed.

Lemma respects_scaffold base dirs : respects R (scaffold base dirs).
Proof.
  intros w r w'. rewrite scaffold_unfold.
  destruct (for_each _ _ _) as [[x|u] w1] eqn:E;
    apply respects_for_each_create in E; intros [= <- <-]; [done|].
  eapply R_trans; [done|]. apply R_say.
Qed.
End respects_relation.

Lemma sys_mkdir_inv cwd t path t' :
  sys_mkdir cwd t path = inr t' →
  ∃ dir name, node_at t dir = Some Dir ∧ t !! (dir ++ [name]) = None ∧
              t' = <[dir ++ [name] := Dir]> t.
Proof.
  unfold sys_mkdir. destruct (nonempty path); [|done].
  destruct (rev _) as [|name rparent]; [done|].
  destruct (walk _ _ _) as [|[dir []]] eqn:E; [done| |done].
  destruct (_ || _); [done|].
  destruct (t !! (dir ++ [name])) eqn:El; [done|].
  intros [= <-]. exists dir, name. split_and!; [|done..].
  by eapply walk_kind.
Qed.

Lemma grows_refl w : grows w w.
Proof. split_and!; [done..|]. intros p Hp. by left. Qed.

Lemma grows_trans w1 w2 w3 : grows w1 w2 → grows w2 w3 → grows w1 w3.
Proof.
  intros (Hc1 & Hs1 & Hn1) (Hc2 & Hs2 & Hn2). split_and!.
  - congruence.
  - by etrans.
  - intros p Hp. destruct (Hn1 p Hp) as [Hp2|Hp2]; [by apply Hn2|].
    right. by eapply lookup_weaken.
Qed.

Lemma grows_mkdir path : respects grows (mkdir path).
Proof.
  intros w r w'. unfold mkdir.
  destruct (sys_mkdir _ _ _) as [e|t'] eqn:E; intros [= <- <-];
    [apply grows_refl|].
  apply sys_mkdir_inv in E as (dir & name & Hdir & Hnew & ->).
  split_and!; [done|by apply insert_subseteq|]. simpl. intros p Hp.
  destruct (decide (dir ++ [name] = p)) as [<-|Hne].
  - right. apply lookup_insert_eq.
  - left. by rewrite lookup_insert_ne.
Qed.

Lemma grows_say s w : grows w (say s w).
Proof. split_and!; [done..|]. intros p Hp. by left. Qed.

Lemma closed_insert t q c :
  closed t → node_at t q = Some Dir → t !! (q ++ [c]) = None →
  closed (<[q ++ [c] := Dir]> t).
Proof.
  intros Hcl Hq Hnew p k Hp.
  assert (t ⊆ <[q ++ [c] := Dir]> t) as Hsub by by apply insert_subseteq.
  destruct (decide (q ++ [c] = p)) as [<-|Hne].
  - rewrite removelast_last. by eapply node_at_mono.
  - rewrite lookup_insert_ne in Hp by done.
    eapply node_at_mono; [done|]. by eapply Hcl.
Qed.

Lemma keeps_closed_mkdir path : respects keeps_closed (mkdir path).
Proof.
  intros w r w'. unfold mkdir.
  destruct (sys_mkdir _ _ _) as [e|t'] eqn:E; intros [= <- <-];
    [by intros ?|].
  apply sys_mkdir_inv in E as (dir & name & Hdir & Hnew & ->).
  intros Hcl. by apply closed_insert.
Qed.

(** X1: whatever the strings and however the run ends, it leaves the
    working directory alone, removes and changes nothing in the tree, and
    what it adds are directories. *)
Theorem run_only_adds_directories base dirs w :
  cwd (scaffold base dirs w).2 = cwd w ∧
  fs w ⊆ fs (scaffold base dirs w).2 ∧
  ∀ p, fs w !! p = None →
       fs (scaffold base dirs w).2 !! p = None ∨
       fs (scaffold base dirs w).2 !! p = Some Dir.
Proof.
  apply (respects_scaffold grows grows_refl grows_trans grows_mkdir grows_say
           base dirs w (scaffold base dirs w).1).
  by destruct (scaffold base dirs w).
Qed.

(** X2: a run keeps the tree closed: when every node hangs below a
    directory before the run, so it does after it, whatever the strings
    and however the run ends. *)
Theorem run_keeps_closed base dirs w :
  closed (fs w) → closed (fs (scaffold base dirs w).2).
Proof.
  assert (respects keeps_closed (scaffold base dirs)) as H.
  { apply respects_scaffold.
    - by intros w1 ?.
    - intros w1 w2 w3 H12 H23 Hcl. auto.
    - apply keeps_closed_mkdir.
    - by intros s w1 ?. }
  apply (H w (scaffold base dirs w).1). by destruct (scaffold base dirs w).
Qed.

Lemma run_keeps_closed_witness :
  closed (fs (scaffold sample_base sample_dirs home_conflict).2).
Proof.
  apply (run_keeps_closed sample_base sample_dirs home_conflict).
  unfold closed. apply (bool_decide_unpack _). vm_compute. exact I.
Defined.

Lemma base_ok_path base :
  base_ok base = true →
  Forall good (base_segs base) ∧
  (base_abs base = true ∨ base_segs base ≠ []) ∧
  base = path_of (base_abs base) (base_segs base).
Proof.
  unfold base_ok, base_abs, base_segs.
  destruct (startswith_sep base) eqn:Hb.
  - destruct base as [|c r]; [done|]. simpl in Hb.
    apply is_sep_true in Hb as ->.
    change (drop_str 1 (String "/" r)) with r.
    destruct (nonempty r) eqn:Hr.
    + simpl. intros H. split_and!.
      * by apply forallb_name_ok_segments.
      * by left.
      * unfold path_of. by rewrite concat_segments.
    + destruct r; [|done]. intros _. split_and!; [constructor|by left|done].
  - intros H. split_and!.
    + by apply forallb_name_ok_segments.
    + right. apply segments_nonnil.
    + unfold path_of. simpl. by rewrite concat_segments.
Qed.

Lemma ways_ext w base dirs dirs' :
  (∀ e, e ∈ dirs ↔ e ∈ dirs') →
  added (ways w base dirs) = added (ways w base dirs').
Proof.
  intros H. apply added_ext. intros p. unfold ways, all_locs.
  rewrite !list_elem_of_bind. by setoid_rewrite H.
Qed.

Lemma run_clear base dirs w :
  base_ok base = true →
  forallb relative_ok dirs = true →
  Forall (way_clear w base) dirs →
  scaffold base dirs w =
  (inr (),
   World (cwd w) (fs w ∪ added (ways w base dirs))
     (stdout w +:+ created_lines base dirs +:+ summary)).
Proof.
  intros (Hg & Habs & Hbase)%base_ok_path Hd%forallb_relative_ok Hway.
  rewrite scaffold_unfold. rewrite Hbase at 1.
  rewrite for_each_create_clear by done. rewrite <-Hbase.
  unfold say, summary. simpl. by rewrite !str_app_assoc.
Qed.

Lemma run_ok_clear base dirs w w' :
  base_ok base = true →
  forallb relative_ok dirs = true →
  scaffold base dirs w = (inr (), w') →
  Forall (way_clear w base) dirs.
Proof.
  intros (Hg & Habs & Hbase)%base_ok_path Hd%forallb_relative_ok.
  intros (w1 & Hloop & _)%scaffold_ok_inv. rewrite Hbase in Hloop.
  by eapply for_each_create_ok_clear.
Qed.

(** X6: a run on well-formed inputs succeeds only if, for every entry,
    nothing stands in the way: the starting point (the root, or the
    working directory for a relative base) is a directory and no location
    from there down to the entry is a regular file.  So a regular file
    anywhere on the way to any entry makes the run raise. *)
Theorem run_succeeds_only_if_clear base dirs w w' :
  base_ok base = true →
  forallb relative_ok dirs = true →
  scaffold base dirs w = (inr (), w') →
  Forall (way_clear w base) dirs.
Proof.
  intros (Hg & Habs & Hbase)%base_ok_path Hd%forallb_relative_ok.
  rewrite scaffold_unfold.
  destruct (for_each _ _ _) as [[x|[]] w1] eqn:Hloop; [done|]. intros _.
  unfold way_clear. rewrite Hbase in Hloop.
  by eapply for_each_create_ok_clear.
Qed.

Lemma run_succeeds_only_if_clear_witness :
  Forall (way_clear home base_dir) directories.
Proof.
  apply (run_succeeds_only_if_clear base_dir directories home (main home).2).
  - reflexivity.
  - reflexivity.
  - apply run_ok_eta. vm_compute. reflexivity.
Defined.

(** X3: a successful run on well-formed inputs creates exactly the missing
    locations on the ways to its entries: the tree after it is the tree
    before it with a directory added at each of them, and nothing else. *)
Theorem run_creates_exactly_the_ways base dirs w w' :
  base_ok base = true →
  forallb relative_ok dirs = true →
  scaffold base dirs w = (inr (), w') →
  fs w' = fs w ∪ added (ways w base dirs).
Proof.
  intros Hb Hd Hrun. pose proof Hrun as Hway%run_ok_clear; [|done..].
  rewrite run_clear in Hrun by done. by injection Hrun as <-.
Qed.

Lemma run_creates_exactly_the_ways_witness :
  fs (main home).2 = fs home ∪ added (ways home base_dir directories).
Proof.
  apply (run_creates_exactly_the_ways base_dir directories home).
  - reflexivity.
  - reflexivity.
  - apply run_ok_eta. vm_compute. reflexivity.
Defined.

(** X4: after a successful run on well-formed inputs not only the entries
    but every location on the way to them is a directory: the base
    directory, its ancestors that the base path names, and every
    intermediate folder of every entry. *)
Theorem run_makes_all_ancestors base dirs w w' :
  base_ok base = true →
  forallb relative_ok dirs = true →
  scaffold base dirs w = (inr (), w') →
  Forall (λ p, fs w' !! p = Some Dir) (ways w base dirs).
Proof.
  intros Hb Hd Hrun. pose proof Hrun as Hway%run_ok_clear; [|done..].
  rewrite run_clear in Hrun by done. injection Hrun as <-. simpl.
  apply Forall_forall. intros p Hp. rewrite lookup_union_added.
  rewrite decide_True by done.
  apply list_elem_of_bind in Hp as (e & Hp & He).
  rewrite Forall_forall in Hway. destruct (Hway e He) as [_ Hfree].
  rewrite Forall_forall in Hfree. specialize (Hfree p Hp).
  by destruct (fs w !! p) as [[]|].
Qed.

Lemma run_makes_all_ancestors_witness :
  Forall (λ p, fs (main home).2 !! p = Some Dir)
    (ways home base_dir directories).
Proof.
  apply (run_makes_all_ancestors base_dir directories home).
  - reflexivity.
  - reflexivity.
  - apply run_ok_eta. vm_compute. reflexivity.
Defined.

(** X7: the tree after a successful run depends only on which entries the
    list holds: a list with the same entries, in any order and with any
    repetitions, gives a successful run that ends in the same tree. *)
Theorem run_depends_on_entry_set base dirs dirs' w w1 :
  base_ok base = true →
  forallb relative_ok dirs = true →
  (∀ e, e ∈ dirs ↔ e ∈ dirs') →
  scaffold base dirs w = (inr (), w1) →
  ∃ w2, scaffold base dirs' w = (inr (), w2) ∧ fs w2 = fs w1.
Proof.
  intros Hb Hd Hsame Hrun. pose proof Hrun as Hway%run_ok_clear; [|done..].
  rewrite run_clear in Hrun by done. injection Hrun as <-.
  eexists. rewrite run_clear; [split; [done|]|done|..].
  - simpl. f_equal. symmetry. by apply ways_ext.
  - apply forallb_relative_ok, Forall_forall. intros e He%Hsame.
    apply forallb_relative_ok in Hd. rewrite Forall_forall in Hd. auto.
  - apply Forall_forall. intros e He%Hsame.
    rewrite Forall_forall in Hway. auto.
Qed.

Lemma run_depends_on_entry_set_witness :
  ∃ w2, scaffold sample_base (sample_dirs ++ reverse sample_dirs) home
          = (inr (), w2) ∧
        fs w2 = fs (scaffold sample_base sample_dirs home).2.
Proof.
  apply (run_depends_on_entry_set sample_base sample_dirs
           (sample_dirs ++ reverse sample_dirs) home).
  - reflexivity.
  - reflexivity.
  - intros e. rewrite elem_of_app, elem_of_reverse. tauto.
  - apply run_ok_eta. vm_compute. reflexivity.
Defined.

Lemma scaffold_raise_inv base dirs w x w' :
  scaffold base dirs w = (inl x, w') →
  ∃ pre e post w1,
    dirs = pre ++ e :: post ∧
    for_each pre (create base) w = (inr (), w1) ∧
    makedirs (join base e) true w1 = (inl x, w') ∧
    stdout w' = stdout w +:+ created_lines base pre.
Proof.
  rewrite scaffold_unfold.
  destruct (for_each _ _ _) as [[y|u] w0] eqn:E; [|done].
  intros [= -> ->]. revert w E.
  induction dirs as [|e dirs IH]; intros w; [done|].
  rewrite for_each_cons, create_unfold.
  destruct (makedirs _ _ _) as [[y|[]] w1] eqn:Em.
  - intros [= -> ->]. exists [], e, dirs, w. split_and!; [done..|].
    apply quiet_makedirs in Em as [_ ->]. by rewrite str_app_nil_r.
  - intros (pre & e' & post & w2 & -> & Hpre & Hfail & Hout)%IH.
    exists (e :: pre), e', post, w2. split_and!; [done| |done|].
    + by rewrite for_each_cons, create_unfold, Em.
    + rewrite Hout. simpl. apply quiet_makedirs in Em as [_ ->].
      by rewrite created_lines_cons, !str_app_assoc.
Qed.

(** X11: a run that raises stops at the first entry whose [makedirs]
    raises: the entries before it were processed, the exception is the one
    of that [makedirs], and the console holds the [Created:] lines of the
    entries before it and nothing more, so neither a line for the failing
    or a later entry nor the summary. *)
Theorem failing_run_stops_at_first_error base dirs w x w' :
  scaffold base dirs w = (inl x, w') →
  ∃ pre e post w1,
    dirs = pre ++ e :: post ∧
    for_each pre (create base) w = (inr (), w1) ∧
    makedirs (join base e) true w1 = (inl x, w') ∧
    stdout w' = stdout w +:+ created_lines base pre.
Proof. apply scaffold_raise_inv. Qed.

Lemma run_fail_eta {A} (r : (exn + A) * world) (x : exn) :
  r.1 = inl x → r = (inl x, r.2).
Proof. destruct r as [? ?]. simpl. by intros ->. Qed.

Lemma failing_run_stops_at_first_error_witness :
  ∃ pre e post w1,
    sample_dirs = pre ++ e :: post ∧
    for_each pre (create sample_base) home_conflict = (inr (), w1) ∧
    makedirs (join sample_base e) true w1
      = (inl (OSError ENOTDIR),
         (scaffold sample_base sample_dirs home_conflict).2) ∧
    stdout (scaffold sample_base sample_dirs home_conflict).2
      = stdout home_conflict +:+ created_lines sample_base pre.
Proof.
  apply (failing_run_stops_at_first_error sample_base sample_dirs
           home_conflict).
  apply run_fail_eta. vm_compute. reflexivity.
Defined.

(** * Runs that raise *)

(** Below a regular file: [NotADirectoryError], and nothing is touched. *)
Lemma makedirs_fuel_under_file ys : ∀ xs c fuel abs w q,
  Forall good (xs ++ ys ++ [c]) →
  (List.length ys ≤ fuel)%nat →
  walk (fs w) (start_of (cwd w) abs) xs = inr (q, File) →
  makedirs_fuel fuel (path_of abs ((xs ++ ys) ++ [c])) true w =
  (inl (OSError ENOTDIR), w).
Proof.
  induction ys as [|c' ys' IH] using rev_ind;
    intros xs c fuel abs w q H Hfuel Hw.
  - rewrite app_nil_r. simpl in H.
    assert (bool_decide (xs ≠ []) && negb (exists_in w (path_of abs xs))
            = false) as Hex.
    { apply andb_false_iff. destruct (decide (xs = [])) as [->|Hn].
      - left. apply bool_decide_false. by intros [].
      - right. apply Forall_app in H as [Hxs _].
        apply negb_false_iff, exists_in_good; [done..|].
        exists File. by pose proof Hw as ->%walk_good_loc. }
    by rewrite makedirs_fuel_good, Hex, mkdir_last_good, Hw.
  - rewrite <-!app_assoc in H.
    assert (Forall good (((xs ++ ys') ++ [c']) ++ [c])) as Hall
      by by rewrite <-!app_assoc.
    pose proof Hall as [Hs Hc]%Forall_app.
    assert ((xs ++ ys') ++ [c'] ≠ []) as Hn by by destruct (xs ++ ys').
    replace ((xs ++ ys' ++ [c']) ++ [c]) with (((xs ++ ys') ++ [c']) ++ [c])
      by by rewrite <-!app_assoc.
    rewrite makedirs_fuel_good by done.
    assert (exists_in w (path_of abs ((xs ++ ys') ++ [c'])) = false) as Hex.
    { unfold exists_in. rewrite sys_stat_good by done.
      rewrite <-app_assoc.
      destruct (ys' ++ [c']) as [|y l] eqn:El; [by destruct ys'|].
      by rewrite walk_app, Hw. }
    rewrite Hex, bool_decide_true by done.
    rewrite length_app in Hfuel. simpl in Hfuel.
    destruct fuel as [|fuel]; [lia|]. simpl andb. cbv iota.
    erewrite IH; [done| |lia|done].
    by rewrite <-app_assoc in Hs.
Qed.

Lemma makedirs_under_file abs xs ys w q :
  ys ≠ [] → Forall good (xs ++ ys) →
  walk (fs w) (start_of (cwd w) abs) xs = inr (q, File) →
  makedirs (path_of abs (xs ++ ys)) true w = (inl (OSError ENOTDIR), w).
Proof.
  intros Hn H Hw. destruct ys as [|c ys _] using rev_ind; [done|].
  unfold makedirs. rewrite app_assoc.
  eapply makedirs_fuel_under_file; [done| |done].
  rewrite app_assoc in H. apply length_path_of with (abs := abs) in H.
  rewrite length_app in H. lia.
Qed.

Lemma segments_app_sep a b :
  segments (a +:+ "/" +:+ b) = segments a ++ segments b.
Proof.
  change ("/" +:+ b) with (String "/" b).
  induction a as [|c a IH]; str_simpl; [done|].
  rewrite IH. destruct (is_sep c); [done|].
  pose proof (segments_nonnil a). by destruct (segments a).
Qed.

Lemma relative_ok_sep a b :
  relative_ok a = true → relative_ok b = true →
  relative_ok (a +:+ "/" +:+ b) = true.
Proof.
  unfold relative_ok. rewrite segments_app_sep, forallb_app.
  by intros -> ->.
Qed.

Lemma isfile_in_good w abs segs :
  segs ≠ [] → Forall good segs →
  isfile_in w (path_of abs segs) = true →
  walk (fs w) (start_of (cwd w) abs) segs
    = inr (start_of (cwd w) abs ++ segs, File).
Proof.
  intros Hn H. unfold isfile_in. rewrite sys_stat_good by done.
  destruct (walk _ _ _) as [e|[q []]] eqn:E; [done..|].
  by pose proof E as ->%walk_good_loc.
Qed.

Lemma isfile_in_extends w w' path :
  extends w w' → isfile_in w path = true → isfile_in w' path = true.
Proof.
  intros Hext. unfold isfile_in.
  destruct (sys_stat (cwd w) _ _) as [e|[]] eqn:E; [done..|].
  by rewrite (sys_stat_extends _ _ _ _ Hext E).
Qed.

(** X10: when the base directory is a regular file, a run over a non-empty
    list of well-formed entries stops at the first entry with
    [NotADirectoryError]; nothing is created and nothing is printed. *)
Theorem base_is_file_fails base e post w :
  base_ok base = true →
  relative_ok e = true →
  isfile_in w base = true →
  scaffold base (e :: post) w = (inl (OSError ENOTDIR), w).
Proof.
  intros (Hg & Habs & Hbase)%base_ok_path. revert Hg Habs Hbase.
  generalize (base_abs base) (base_segs base).
  intros abs bsegs Hg Habs -> He Hfile.
  destruct (join_path_of _ _ Hg Habs e He) as (Hn & Hge & Hj).
  rewrite scaffold_unfold, for_each_cons, create_unfold, Hj.
  destruct (decide (bsegs = [])) as [->|Hbn]; [by destruct abs|].
  apply isfile_in_good in Hfile; [|done..].
  by erewrite makedirs_under_file.
Qed.

Lemma base_is_file_fails_witness :
  scaffold "/tmp/proj/lib/features" ("user" :: ["post"]) home_conflict
  = (inl (OSError ENOTDIR), home_conflict).
Proof.
  apply (base_is_file_fails "/tmp/proj/lib/features" "user" ["post"]
           home_conflict).
  - reflexivity.
  - reflexivity.
  - vm_compute. reflexivity.
Defined.

(** X9: when [join base a] is a regular file, an entry [a/b] below it makes
    the run stop there with [NotADirectoryError]: once the entries before
    it were processed, the world is the one they left. *)
Theorem entry_below_file_fails base pre a b post w w1 :
  base_ok base = true →
  relative_ok a = true →
  relative_ok b = true →
  isfile_in w (join base a) = true →
  for_each pre (create base) w = (inr (), w1) →
  scaffold base (pre ++ (a +:+ "/" +:+ b) :: post) w
  = (inl (OSError ENOTDIR), w1).
Proof.
  intros (Hg & Habs & Hbase)%base_ok_path. revert Hg Habs Hbase.
  generalize (base_abs base) (base_segs base).
  intros abs bsegs Hg Habs -> Ha Hb Hfile Hpre.
  rewrite scaffold_unfold, for_each_app, Hpre, for_each_cons, create_unfold.
  apply for_each_create_extends in Hpre.
  apply (isfile_in_extends _ _ _ Hpre) in Hfile.
  destruct (join_path_of _ _ Hg Habs a Ha) as (Hna & Hga & Hja).
  destruct (join_path_of _ _ Hg Habs _ (relative_ok_sep _ _ Ha Hb))
    as (Hn & Hgab & Hj).
  rewrite Hj. rewrite Hja in Hfile. rewrite segments_app_sep in *.
  apply isfile_in_good in Hfile; [|by apply app_nonnil_r|done].
  rewrite app_assoc in *.
  erewrite makedirs_under_file; [done| |done..].
  pose proof (segments_nonnil b). done.
Qed.

Lemma entry_below_file_fails_witness :
  scaffold sample_base
    (["core/error"] ++ ("features" +:+ "/" +:+ "user/domain") :: ["core"])
    home_conflict
  = (inl (OSError ENOTDIR),
     (for_each ["core/error"] (create sample_base) home_conflict).2).
Proof.
  apply (entry_below_file_fails sample_base ["core/error"] "features"
           "user/domain" ["core"] home_conflict).
  - reflexivity.
  - reflexivity.
  - reflexivity.
  - vm_compute. reflexivity.
  - apply run_ok_eta. vm_compute. reflexivity.
Defined.

(** X5: when a run on well-formed inputs raises, the work of the entries
    before the failing one is all there and stays: those entries had a
    clear way, the failing [makedirs] started from the initial tree with
    their ways added, the final tree contains that tree, and the console
    holds their [Created:] lines. *)
Theorem failing_run_keeps_earlier_work base dirs w x w' :
  base_ok base = true →
  forallb relative_ok dirs = true →
  scaffold base dirs w = (inl x, w') →
  ∃ pre e post,
    dirs = pre ++ e :: post ∧
    Forall (way_clear w base) pre ∧
    makedirs (join base e) true
      (World (cwd w) (fs w ∪ added (ways w base pre))
         (stdout w +:+ created_lines base pre)) = (inl x, w') ∧
    fs w ∪ added (ways w base pre) ⊆ fs w' ∧
    stdout w' = stdout w +:+ created_lines base pre.
Proof.
  intros Hb Hd
    (pre & e & post & w1 & -> & Hpre & Hfail & Hout)%scaffold_raise_inv.
  pose proof Hb as (Hg & Habs & Hbase)%base_ok_path.
  apply forallb_relative_ok, Forall_app in Hd as [Hdpre _].
  exists pre, e, post.
  assert (Forall (way_clear w base) pre) as Hway.
  { unfold way_clear. rewrite Hbase in Hpre.
    by eapply for_each_create_ok_clear. }
  assert (w1 = World (cwd w) (fs w ∪ added (ways w base pre))
                 (stdout w +:+ created_lines base pre)) as Hw1.
  { rewrite Hbase in Hpre at 1.
    rewrite for_each_create_clear in Hpre by done.
    rewrite <-Hbase in Hpre. by injection Hpre as <-. }
  pose proof (quiet_makedirs _ _ _ _ _ Hfail) as [[_ Hsub] _].
  rewrite Hw1 in Hfail, Hsub. by split_and!.
Qed.

Lemma failing_run_keeps_earlier_work_witness :
  ∃ pre e post,
    sample_dirs = pre ++ e :: post ∧
    Forall (way_clear home_conflict sample_base) pre ∧
    makedirs (join sample_base e) true
      (World (cwd home_conflict)
         (fs home_conflict ∪ added (ways home_conflict sample_base pre))
         (stdout home_conflict +:+ created_lines sample_base pre))
    = (inl (OSError ENOTDIR),
       (scaffold sample_base sample_dirs home_conflict).2) ∧
    fs home_conflict ∪ added (ways home_conflict sample_base pre)
      ⊆ fs (scaffold sample_base sample_dirs home_conflict).2 ∧
    stdout (scaffold sample_base sample_dirs home_conflict).2
    = stdout home_conflict +:+ created_lines sample_base pre.
Proof.
  apply (failing_run_keeps_earlier_work sample_base sample_dirs
           home_conflict).
  - reflexivity.
  - reflexivity.
  - apply run_fail_eta. vm_compute. reflexivity.
Defined.
